(** * VisionSort: photo metadata reconciliation

    A shallow embedding of the client-side logic of the VisionSort photo
    organiser (App.tsx, services/dbService.ts, components/MapView.tsx and
    types.ts) together with the properties its specification states.

    - A JavaScript string is the [string] of its UTF-8 bytes (the program
      compares and concatenates strings and scans them for ASCII characters
      only), integers are [Z], coordinates are IEEE-754 values
      ([spec_float]).
    - The IndexedDB object stores and the [diaryNotes] object are finite maps
      ([gmap string _]); the React [photos] state is a [list].
    - Asynchronous functions are split at their suspension points into the
      pieces that run atomically; what the environment answers (a user
      confirmation, a transaction that fails, the reply of the inference
      service) is an explicit argument of the piece that consumes it. *)

From Stdlib Require Import ZArith String Ascii List Lia DecimalString.
From Stdlib Require Import Floats.SpecFloat.
From stdpp Require Import base gmap list strings sorting.

Local Open Scope string_scope.
Local Open Scope Z_scope.

(* ===================================================================== *)
(** * JavaScript primitives used by the program *)
(* ===================================================================== *)

Module Js.

(** [String(n)] for an integer [n]. *)
Definition String_ (n : Z) : string := NilZero.string_of_int (Z.to_int n).

(** [\d] (without the unicode flag): the ten ASCII digits. *)
Definition is_digit (c : ascii) : bool :=
  ((48 <=? nat_of_ascii c) && (nat_of_ascii c <=? 57))%nat.

Definition digit_val (c : ascii) : Z := Z.of_nat (nat_of_ascii c) - 48.

(** [parseInt(s, 10)] on the digits a [\d{n}] group captured: the decimal
    value of the leading digits. *)
Fixpoint parseInt_acc (acc : Z) (s : string) : Z :=
  match s with
  | String c s' => if is_digit c then parseInt_acc (10 * acc + digit_val c) s' else acc
  | EmptyString => acc
  end.

Definition parseInt (s : string) : Z := parseInt_acc 0 s.

Fixpoint repeat_char (c : ascii) (n : nat) : string :=
  match n with
  | O => EmptyString
  | S n' => String c (repeat_char c n')
  end.

(** [s.padStart(n, c)] for a one-character filler. *)
Definition padStart (n : nat) (c : ascii) (s : string) : string :=
  repeat_char c (n - String.length s) ++ s.

(** [s.includes(t)]. *)
Fixpoint includes (t s : string) : bool :=
  String.prefix t s ||
  match s with
  | String _ s' => includes t s'
  | EmptyString => false
  end.

(** [s.replace(/[:/]/g, '-')]. *)
Fixpoint replace_colon_slash (s : string) : string :=
  match s with
  | String c s' =>
      String (if Ascii.eqb c ":" || Ascii.eqb c "/" then "-"%char else c)
             (replace_colon_slash s')
  | EmptyString => EmptyString
  end.

(** [s.split(' ')[0]]: what precedes the first space. *)
Fixpoint before_space (s : string) : string :=
  match s with
  | String c s' => if Ascii.eqb c " " then EmptyString else String c (before_space s')
  | EmptyString => EmptyString
  end.

(** A valid [Date], seen through the three local-time getters the program
    calls: [getFullYear()], [getMonth()] (0-based) and [getDate()]. *)
Record Date := mkDate { getFullYear : Z; getMonth : Z; getDate : Z }.

(** A [Blob]: its MIME type and its bytes. *)
Record Blob := mkBlob { blob_type : string; blob_bytes : string }.

(** A [File] is a [Blob] with a name and a modification time. *)
Record File := mkFile { file_name : string; lastModified : Z; file_blob : Blob }.

Definition file_size (f : File) : Z := Z.of_nat (String.length (blob_bytes (file_blob f))).

(** An own property of an object literal: not there, there with the value
    [undefined], or there with a value.  Spreading copies the last two. *)
Inductive field (A : Type) : Type :=
| Missing
| Undefined
| Has (a : A).
Arguments Missing {A}.
Arguments Undefined {A}.
Arguments Has {A} a.

(** The property [f] of [{...older, ...newer}]. *)
Definition spread_field {A} (older newer : field A) : field A :=
  match newer with
  | Missing => older
  | _ => newer
  end.

(** Truthiness of an optional object-valued property. *)
Definition truthy_obj {A} (x : field A) : option A :=
  match x with
  | Has a => Some a
  | _ => None
  end.

(** The property [f] of the literal [{ f: o.f }]: always an own property,
    [undefined] when [o] has no [f]. *)
Definition copied {A} (x : field A) : field A :=
  match x with
  | Missing => Undefined
  | _ => x
  end.

(** JavaScript numbers. *)
Abbreviation number := spec_float.

Definition isNaN (x : number) : bool :=
  match x with
  | S754_nan => true
  | _ => false
  end.

(** [x === 0] (both zeros compare equal to [0]). *)
Definition is_zero (x : number) : bool :=
  match x with
  | S754_zero _ => true
  | _ => false
  end.

(** What the program needs from the JavaScript engine and the browser and
    does not define itself. *)
Class Engine := {
  (** [new Date(s)] for a string; [None] is the invalid date. *)
  Date_parse : string -> option Date;
  (** [new Date(ms)] for a file's modification time. *)
  Date_ofMillis : Z -> Date;
  (** [x.toFixed(6)]. *)
  toFixed6 : number -> string;
  (** The [n]-th object URL the browser mints in this session. *)
  objectURL : nat -> string
}.

End Js.
Export Js.

(* ===================================================================== *)
(** * types.ts *)
(* ===================================================================== *)

Record PhotoMetadata := mkPhoto {
  id : string;
  url : field string;
  fileBlob : field Blob;
  name : string;
  locationName : string;
  country : field string;
  latitude : number;
  longitude : number;
  date : string;
  description : string;
  isProcessing : bool;
  manuallyPlaced : field bool
}.

Record AnalysisResult := mkAnalysis {
  r_locationName : string;
  r_country : field string;
  r_latitude : number;
  r_longitude : number;
  r_date : string;
  r_description : string
}.

(** [{ ...older, ...newer }] at type [PhotoMetadata]: the required properties
    are own properties of [newer], the optional ones are taken from [newer]
    when it has them. *)
Definition spread (older newer : PhotoMetadata) : PhotoMetadata :=
  {| id := id newer;
     url := spread_field (url older) (url newer);
     fileBlob := spread_field (fileBlob older) (fileBlob newer);
     name := name newer;
     locationName := locationName newer;
     country := spread_field (country older) (country newer);
     latitude := latitude newer;
     longitude := longitude newer;
     date := date newer;
     description := description newer;
     isProcessing := isProcessing newer;
     manuallyPlaced := spread_field (manuallyPlaced older) (manuallyPlaced newer) |}.

(* ===================================================================== *)
(** * App.tsx: date resolution *)
(* ===================================================================== *)

Module DateLogic.

Definition pad2 (n : Z) : string := padStart 2 "0" (String_ n).

Definition formatToISO (d : Date) : string :=
  String_ (getFullYear d) ++ "-" ++ pad2 (getMonth d + 1) ++ "-" ++ pad2 (getDate d).

(** [\d{n}] at the head of [s]: the digits and what follows them. *)
Fixpoint take_digits (n : nat) (s : string) : option (string * string) :=
  match n with
  | O => Some (EmptyString, s)
  | S n' =>
      match s with
      | String c s' =>
          if is_digit c
          then match take_digits n' s' with
               | Some (ds, rest) => Some (String c ds, rest)
               | None => None
               end
          else None
      | EmptyString => None
      end
  end.

(** [(\d{4})(\d{2})(\d{2})] anchored at the head of [s]. *)
Definition match_here (s : string) : option (string * string * string) :=
  match take_digits 4 s with
  | Some (g1, s1) =>
      match take_digits 2 s1 with
      | Some (g2, s2) =>
          match take_digits 2 s2 with
          | Some (g3, _) => Some (g1, g2, g3)
          | None => None
          end
      | None => None
      end
  | None => None
  end.

(** [filename.match(/(\d{4})(\d{2})(\d{2})/)]: the leftmost position at
    which the pattern matches, and its three groups. *)
Fixpoint regex_match (s : string) : option (string * string * string) :=
  match match_here s with
  | Some g => Some g
  | None =>
      match s with
      | String _ s' => regex_match s'
      | EmptyString => None
      end
  end.

Definition extractDateFromFilename (filename : string) : option string :=
  match regex_match filename with
  | Some (g1, g2, g3) =>
      let y := parseInt g1 in
      let m := parseInt g2 in
      let d := parseInt g3 in
      if (1980 <? y) && (y <? 2100) && (1 <=? m) && (m <=? 12) && (1 <=? d) && (d <=? 31)
      then Some (String_ y ++ "-" ++ pad2 m ++ "-" ++ pad2 d)
      else None
  | None => None
  end.

(** A [string | null] used as a condition. *)
Definition truthy_string (x : option string) : option string :=
  match x with
  | Some s => if String.eqb s "" then None else Some s
  | None => None
  end.

Definition parseSmartDate `{Engine} (filename aiDateStr : string) (fileDate : Date) : string :=
  match truthy_string (extractDateFromFilename filename) with
  | Some filenameDate => filenameDate
  | None =>
      if negb (String.eqb aiDateStr "") && negb (includes ".." aiDateStr)
         && negb (String.eqb aiDateStr "Unknown")
      then
        let standardized := before_space (replace_colon_slash aiDateStr) in
        match Date_parse standardized with
        | Some parsed =>
            if 1980 <? getFullYear parsed then formatToISO parsed else formatToISO fileDate
        | None => formatToISO fileDate
        end
      else formatToISO fileDate
  end.

End DateLogic.
Export DateLogic.

(* ===================================================================== *)
(** * The session: React state, IndexedDB, the browser *)
(* ===================================================================== *)

Module Session.

(** The two object stores of the database [VisionSortDB], both keyed by
    [id].  A row of [notes] is [{ id, note }]. *)
Record DB := mkDB {
  store_photos : gmap string PhotoMetadata;
  store_notes : gmap string string
}.

(** The [useState] cells of [App] the modelled functions read or write. *)
Record AppState := mkApp {
  photos : list PhotoMetadata;
  diaryNotes : gmap string string;
  selectedPhotoForModal : option PhotoMetadata;
  focusedPhoto : option PhotoMetadata
}.

Record World := mkWorld {
  app : AppState;
  db : DB;
  (** Blobs behind the object URLs minted so far: URL number [n] resolves
      to the [n]-th entry. *)
  urlStore : list Blob;
  (** Messages shown with [alert], oldest first. *)
  alerts : list string
}.

Definition emptyDB : DB := mkDB ∅ ∅.
Definition emptyApp : AppState := mkApp [] ∅ None None.
Definition emptyWorld : World := mkWorld emptyApp emptyDB [] [].

(** A computation that reads and writes the session and either returns or
    throws (a rejected promise). *)
Inductive Result (A : Type) : Type :=
| Returned (a : A)
| Thrown.
Arguments Returned {A} a.
Arguments Thrown {A}.

Definition M (A : Type) : Type := World -> Result A * World.

Definition ret {A} (a : A) : M A := fun w => (Returned a, w).

Definition bind {A B} (m : M A) (k : A -> M B) : M B :=
  fun w =>
    match m w with
    | (Returned a, w') => k a w'
    | (Thrown, w') => (Thrown, w')
    end.

Definition throw {A} : M A := fun w => (Thrown, w).

(** [try { body } catch { handler }]. *)
Definition try_catch {A} (body handler : M A) : M A :=
  fun w =>
    match body w with
    | (Returned a, w') => (Returned a, w')
    | (Thrown, w') => handler w'
    end.

Definition get : M World := fun w => (Returned w, w).
Definition modify (f : World -> World) : M unit := fun w => (Returned tt, f w).

#[global] Instance session_ret : MRet M := @ret.
#[global] Instance session_bind : MBind M := fun A B k m => bind m k.

(** The world a computation ends in, and whether it threw. *)
Definition exec {A} (m : M A) (w : World) : World := snd (m w).
Definition threw {A} (m : M A) (w : World) : bool :=
  match fst (m w) with
  | Thrown => true
  | Returned _ => false
  end.

(** What the environment decides about a database request. *)
Inductive io := Succeeds | Fails.

Definition with_app (f : AppState -> AppState) (w : World) : World :=
  mkWorld (f (app w)) (db w) (urlStore w) (alerts w).
Definition with_db (f : DB -> DB) (w : World) : World :=
  mkWorld (app w) (f (db w)) (urlStore w) (alerts w).

(** [URL.createObjectURL(blob)]. *)
Definition createObjectURL `{Engine} (b : Blob) : M string :=
  fun w =>
    (Returned (objectURL (length (urlStore w))),
     mkWorld (app w) (db w) (urlStore w ++ [b]) (alerts w)).

Definition alert (msg : string) : M unit :=
  modify (fun w => mkWorld (app w) (db w) (urlStore w) (alerts w ++ [msg])).

End Session.
Export Session.

(* ===================================================================== *)
(** * services/dbService.ts *)
(* ===================================================================== *)

Module DbService.

(** [const dataToSave = { ...photo }; delete dataToSave.url]. *)
Definition dataToSave (photo : PhotoMetadata) : PhotoMetadata :=
  {| id := id photo; url := Missing; fileBlob := fileBlob photo; name := name photo;
     locationName := locationName photo; country := country photo;
     latitude := latitude photo; longitude := longitude photo; date := date photo;
     description := description photo; isProcessing := isProcessing photo;
     manuallyPlaced := manuallyPlaced photo |}.

(** [store.put] writes under the key path [id]; a failing request (or a
    database that does not open) rejects and writes nothing. *)
Definition savePhoto (o : io) (photo : PhotoMetadata) : M unit :=
  match o with
  | Fails => throw
  | Succeeds =>
      modify (with_db (fun d =>
        mkDB (<[id photo := dataToSave photo]> (store_photos d)) (store_notes d)))
  end.

(** One read-write transaction over both stores: it completes with both
    deletes applied, or it errors and is rolled back. *)
Definition deletePhoto (o : io) (photoId : string) : M unit :=
  match o with
  | Fails => throw
  | Succeeds =>
      modify (with_db (fun d =>
        mkDB (delete photoId (store_photos d)) (delete photoId (store_notes d))))
  end.

(** [{ ...p, url: p.fileBlob ? URL.createObjectURL(p.fileBlob) : "" }]. *)
Definition revive `{Engine} (p : PhotoMetadata) : M PhotoMetadata :=
  u ← match truthy_obj (fileBlob p) with
      | Some b => createObjectURL b
      | None => ret ""
      end;
  ret {| id := id p; url := Has u; fileBlob := fileBlob p; name := name p;
         locationName := locationName p; country := country p;
         latitude := latitude p; longitude := longitude p; date := date p;
         description := description p; isProcessing := isProcessing p;
         manuallyPlaced := manuallyPlaced p |}.

(** [request.result.map(f)] for an effectful [f], left to right. *)
Fixpoint mapM {A B} (f : A -> M B) (l : list A) : M (list B) :=
  match l with
  | [] => ret []
  | x :: l' => y ← f x; ys ← mapM f l'; ret (y :: ys)
  end.

(** The order of the keys of an object store. *)
Definition key_le {V} (x y : string * V) : Prop := String.leb x.1 y.1 = true.

#[global] Instance key_le_dec {V} (x y : string * V) : Decision (key_le x y) :=
  decide (String.leb x.1 y.1 = true).

(** [store.getAll()]: the rows of the store, by ascending key. *)
Definition getAll {V} (m : gmap string V) : list V :=
  (merge_sort key_le (map_to_list m)).*2.

Definition getAllPhotos `{Engine} (o : io) : M (list PhotoMetadata) :=
  match o with
  | Fails => throw
  | Succeeds => w ← get; mapM revive (getAll (store_photos (db w)))
  end.

Definition saveNote (o : io) (photoId note : string) : M unit :=
  match o with
  | Fails => throw
  | Succeeds =>
      modify (with_db (fun d =>
        mkDB (store_photos d) (<[photoId := note]> (store_notes d))))
  end.

(** The rows [{ id, note }] folded into an object [notes[id] = note]. *)
Definition getAllNotes (o : io) : M (gmap string string) :=
  match o with
  | Fails => throw
  | Succeeds => w ← get; ret (store_notes (db w))
  end.

Definition clearAllData (o : io) : M unit :=
  match o with
  | Fails => throw
  | Succeeds => modify (with_db (fun _ => emptyDB))
  end.

End DbService.

(* ===================================================================== *)
(** * App.tsx: the record store and the enrichment pipeline *)
(* ===================================================================== *)

Module App.

(** The texts the pipeline writes into records and shows to the user. *)
Definition LOCATING : string := "特定中...".
Definition ANALYSING : string := "Gemini AIが解析しています".
Definition LOCATE_FAILED : string := "特定失敗".
Definition RESOLVING_NAME : string := "地点名を特定中...".
Definition COULD_NOT_IDENTIFY : string := "特定できませんでした".
Definition DELETE_FAILED_NOTICE : string :=
  "削除中にエラーが発生しました。DBがロックされている可能性があります。".

Definition setPhotos (f : list PhotoMetadata -> list PhotoMetadata) : M unit :=
  modify (with_app (fun a =>
    mkApp (f (photos a)) (diaryNotes a) (selectedPhotoForModal a) (focusedPhoto a))).

Definition setDiaryNotes (f : gmap string string -> gmap string string) : M unit :=
  modify (with_app (fun a =>
    mkApp (photos a) (f (diaryNotes a)) (selectedPhotoForModal a) (focusedPhoto a))).

Definition setSelectedPhotoForModal (v : option PhotoMetadata) : M unit :=
  modify (with_app (fun a => mkApp (photos a) (diaryNotes a) v (focusedPhoto a))).

Definition setFocusedPhoto (f : option PhotoMetadata -> option PhotoMetadata) : M unit :=
  modify (with_app (fun a =>
    mkApp (photos a) (diaryNotes a) (selectedPhotoForModal a) (f (focusedPhoto a)))).

(** The updater [addOrUpdatePhoto] hands to [setPhotos]. *)
Definition upsert (photo : PhotoMetadata) (prev : list PhotoMetadata) : list PhotoMetadata :=
  match list_find (fun p => id p = id photo) prev with
  | Some (existingIndex, existing) => <[existingIndex := spread existing photo]> prev
  | None => prev ++ [photo]
  end.

Definition addOrUpdatePhoto (o : io) (photo : PhotoMetadata) : M unit :=
  setPhotos (upsert photo);;
  DbService.savePhoto o photo.

(** [prev.filter(p => p.id !== photoId)]. *)
Definition removeById (photoId : string) (prev : list PhotoMetadata) : list PhotoMetadata :=
  filter (fun p => id p ≠ photoId) prev.

(** [confirmed] is the answer to [window.confirm]. *)
Definition handleDeletePhoto (confirmed : bool) (o : io) (photoId : string) : M unit :=
  if negb confirmed then mret tt
  else
    try_catch
      (DbService.deletePhoto o photoId;;
       setPhotos (removeById photoId);;
       setDiaryNotes (delete photoId);;
       setSelectedPhotoForModal None;;
       setFocusedPhoto (fun prev =>
         match prev with
         | Some p => if decide (id p = photoId) then None else prev
         | None => prev
         end))
      (alert DELETE_FAILED_NOTICE).

Definition photoId (file : File) : string :=
  "photo-" ++ file_name file ++ "-" ++ String_ (file_size file)
           ++ "-" ++ String_ (lastModified file).

(** [prev.map(p => p.id === id ? v : p)]. *)
Definition replaceById (photoId : string) (v : PhotoMetadata)
    (prev : list PhotoMetadata) : list PhotoMetadata :=
  (fun p => if decide (id p = photoId) then v else p) <$> prev.

(** [processFile] up to [reader.readAsDataURL(file)]: the provisional
    record is registered; the object URL is what the [onload] closure
    keeps. *)
Definition processFile_register `{Engine} (o : io) (file : File) : M string :=
  let fileDate := Date_ofMillis (lastModified file) in
  url ← createObjectURL (file_blob file);
  let initialDate :=
    match truthy_string (extractDateFromFilename (file_name file)) with
    | Some d => d
    | None => formatToISO fileDate
    end in
  let newPhoto :=
    {| id := photoId file; url := Has url; name := file_name file;
       locationName := LOCATING; latitude := S754_zero false; longitude := S754_zero false;
       date := initialDate; description := ANALYSING; isProcessing := true;
       manuallyPlaced := Has false; fileBlob := Has (file_blob file);
       country := Missing |} in
  addOrUpdatePhoto o newPhoto;;
  mret url.

(** What [await analyzeImage(...)] evaluates to. *)
Inductive Analysis :=
| AnalysisReturns (result : AnalysisResult)
| AnalysisThrows.

(** The record [reader.onload] builds from the reply of the service. *)
Definition enriched `{Engine} (file : File) (url : string) (result : AnalysisResult)
    : PhotoMetadata :=
  let fileDate := Date_ofMillis (lastModified file) in
  let finalDate := parseSmartDate (file_name file) (r_date result) fileDate in
  {| id := photoId file; url := Has url; name := file_name file;
     fileBlob := Has (file_blob file);
     locationName := r_locationName result; country := copied (r_country result);
     latitude := r_latitude result; longitude := r_longitude result;
     date := finalDate; description := r_description result;
     isProcessing := false; manuallyPlaced := Has false |}.

(** [p => p.id === id ? { ...p, isProcessing: false, ... } : p]. *)
Definition markFailed (photoId : string) (p : PhotoMetadata) : PhotoMetadata :=
  if decide (id p = photoId)
  then {| id := id p; url := url p; fileBlob := fileBlob p; name := name p;
          locationName := LOCATE_FAILED; country := country p;
          latitude := latitude p; longitude := longitude p; date := date p;
          description := "Error"; isProcessing := false;
          manuallyPlaced := manuallyPlaced p |}
  else p.

(** [reader.onload]: runs once the file has been read.  The base64 payload
    of a data URL is empty exactly when the file is. *)
Definition processFile_onload `{Engine} (file : File) (url : string)
    (reply : Analysis) (o : io) : M unit :=
  if String.eqb (blob_bytes (file_blob file)) "" then mret tt
  else
    try_catch
      (match reply with
       | AnalysisReturns result => addOrUpdatePhoto o (enriched file url result)
       | AnalysisThrows => throw
       end)
      (setPhotos (fmap (markFailed (photoId file)))).

(** What the asynchronous part of a relocation keeps from the updater that
    started it. *)
Record Relocation := mkRelocation {
  reloc_updated : PhotoMetadata;
  reloc_blob : Blob
}.

Definition relocated (photo : PhotoMetadata) (lat lng : number) : PhotoMetadata :=
  {| id := id photo; url := url photo; fileBlob := fileBlob photo; name := name photo;
     country := country photo; date := date photo; description := description photo;
     latitude := lat; longitude := lng; locationName := RESOLVING_NAME;
     isProcessing := true; manuallyPlaced := Has true |}.

(** The updater of [updatePhotoLocation]: the optimistic write, and the
    asynchronous block it launches when the photo has its blob. *)
Definition updatePhotoLocation_begin (photoId : string) (lat lng : number)
    : M (option Relocation) :=
  w ← get;
  match list_find (fun p => id p = photoId) (photos (app w)) with
  | None => mret None
  | Some (_, photo) =>
      let updated := relocated photo lat lng in
      setPhotos (replaceById photoId updated);;
      mret (match truthy_obj (fileBlob photo) with
            | Some b => Some (mkRelocation updated b)
            | None => None
            end)
  end.

(** How the asynchronous block goes: reading the blob fails,
    [identifyLocation] throws, or it returns a name and the write to the
    database succeeds or fails. *)
Inductive LocationReply :=
| ReadFails
| IdentifyThrows
| Identified (aiLocationName : string) (o : io).

Definition withName (updated : PhotoMetadata) (n : string) : PhotoMetadata :=
  {| id := id updated; url := url updated; fileBlob := fileBlob updated;
     name := name updated; country := country updated; date := date updated;
     description := description updated; latitude := latitude updated;
     longitude := longitude updated; manuallyPlaced := manuallyPlaced updated;
     locationName := n; isProcessing := false |}.

Definition updatePhotoLocation_resolve (photoId : string) (r : Relocation)
    (reply : LocationReply) : M unit :=
  let updated := reloc_updated r in
  try_catch
    (match reply with
     | ReadFails | IdentifyThrows => throw
     | Identified aiLocationName o =>
         let finalUpdate := withName updated aiLocationName in
         setPhotos (replaceById photoId finalUpdate);;
         DbService.savePhoto o finalUpdate
     end)
    (let errorUpdate := withName updated COULD_NOT_IDENTIFY in
     setPhotos (replaceById photoId errorUpdate)).

Definition handleUpdateNote (o : io) (photoId note : string) : M unit :=
  setDiaryNotes (insert photoId note);;
  DbService.saveNote o photoId note.

End App.

(* ===================================================================== *)
(** * components/MapView.tsx: located photos and their clusters *)
(* ===================================================================== *)

Module MapView.

Definition located (p : PhotoMetadata) : bool :=
  negb (isNaN (latitude p)) && negb (isNaN (longitude p))
  && (negb (is_zero (latitude p)) || negb (is_zero (longitude p))).

Definition mappedPhotos (photos : list PhotoMetadata) : list PhotoMetadata :=
  List.filter located photos.

Definition unknownPhotos (photos : list PhotoMetadata) : list PhotoMetadata :=
  List.filter (fun p => isNaN (latitude p) || isNaN (longitude p)
                        || (is_zero (latitude p) && is_zero (longitude p))) photos.

Record ClusterItem := mkCluster {
  c_name : string;
  c_count : Z;
  c_lat : number;
  c_lng : number;
  c_photoIds : list string;
  c_thumbnailUrl : field string
}.

Definition cluster_key `{Engine} (photo : PhotoMetadata) : string :=
  toFixed6 (latitude photo) ++ "-" ++ toFixed6 (longitude photo).

(** [acc[key].count++; acc[key].photoIds.push(photo.id)]. *)
Definition add_member (photoId : string) (c : ClusterItem) : ClusterItem :=
  mkCluster (c_name c) (c_count c + 1) (c_lat c) (c_lng c)
            (c_photoIds c ++ [photoId]) (c_thumbnailUrl c).

(** The reducer.  Every key contains a hyphen, so [acc[key]] never reads a
    property inherited from [Object.prototype]. *)
Definition cluster_step `{Engine} (acc : gmap string ClusterItem) (photo : PhotoMetadata)
    : gmap string ClusterItem :=
  let key := cluster_key photo in
  let acc' :=
    match acc !! key with
    | Some _ => acc
    | None =>
        <[key := mkCluster (locationName photo) 0 (latitude photo) (longitude photo)
                           [] (url photo)]> acc
    end in
  alter (add_member (id photo)) key acc'.

Definition clusters `{Engine} (mapped : list PhotoMetadata) : gmap string ClusterItem :=
  fold_left cluster_step mapped ∅.

End MapView.

(* ===================================================================== *)
(** * Objects used as dictionaries *)
(* ===================================================================== *)

Module JsObject.

(** The property names an object literal [{}] inherits from
    [Object.prototype].  Each of them reads as a function or an object: it
    is truthy, it is not a number, and it has no [push]. *)
Definition OBJECT_PROTOTYPE_KEYS : list string :=
  ["constructor"; "__defineGetter__"; "__defineSetter__"; "hasOwnProperty";
   "__lookupGetter__"; "__lookupSetter__"; "isPrototypeOf"; "propertyIsEnumerable";
   "toString"; "valueOf"; "__proto__"; "toLocaleString"].

Definition inherited (k : string) : bool := bool_decide (k ∈ OBJECT_PROTOTYPE_KEYS).

(** [x || d] for an optional string. *)
Definition or_string (x : field string) (d : string) : string :=
  match x with
  | Has s => if String.eqb s "" then d else s
  | _ => d
  end.

End JsObject.
Export JsObject.

(* ===================================================================== *)
(** * App.tsx: loading, batches of files, the date range, the focus *)
(* ===================================================================== *)

Module AppShell.

Import App.

Inductive ViewMode :=
| View_landing | View_config | View_folders | View_map | View_all
| View_calendar | View_timeline.

(** [loadData] of the start-up effect: both reads, then both state
    setters; an error of either read is logged and nothing is set. *)
Definition loadData `{Engine} (o_photos o_notes : io) : M unit :=
  try_catch
    (savedPhotos ← DbService.getAllPhotos o_photos;
     savedNotes ← DbService.getAllNotes o_notes;
     setPhotos (fun _ => savedPhotos);;
     setDiaryNotes (fun _ => savedNotes))
    (mret tt).

(** [dateRange] and the [useMemo] that filters by it; [>=] and [<=] on
    strings compare them character by character. *)
Record DateRange := mkRange { range_start : string; range_end : string }.

Definition filteredPhotosByDate (photos : list PhotoMetadata) (dateRange : DateRange)
    : list PhotoMetadata :=
  List.filter (fun p => String.leb (range_start dateRange) (date p)
                        && String.leb (date p) (range_end dateRange)) photos.

Definition handleFocusPhoto (photo : PhotoMetadata) (viewMode : ViewMode) : M ViewMode :=
  if is_zero (latitude photo) && is_zero (longitude photo) then mret viewMode
  else
    setFocusedPhoto (fun _ => Some photo);;
    mret View_map.

(** [handleFileChange]: every file of the selection is handed to
    [processFile]; a registration that rejects stops that file only.  The
    result lists the files whose reader was started, with the object URL
    each [onload] closure keeps. *)
Fixpoint processFiles `{Engine} (files : list (File * io)) : M (list (File * string)) :=
  match files with
  | [] => mret []
  | (file, o) :: rest =>
      started ← try_catch (url ← processFile_register o file; mret (Some (file, url)))
                          (mret None);
      others ← processFiles rest;
      mret (match started with
            | Some r => r :: others
            | None => others
            end)
  end.

Definition handleFileChange `{Engine} (files : list (File * io)) (viewMode : ViewMode)
    : M (ViewMode * list (File * string)) :=
  match files with
  | [] => mret (viewMode, [])
  | _ =>
      let viewMode' :=
        match viewMode with
        | View_landing => View_all
        | v => v
        end in
      readers ← processFiles files;
      mret (viewMode', readers)
  end.

End AppShell.

(* ===================================================================== *)
(** * components/PhotoCard.tsx *)
(* ===================================================================== *)

Module PhotoCard.

(** [photo.latitude !== 0 || photo.longitude !== 0]. *)
Definition hasLocation (photo : PhotoMetadata) : bool :=
  negb (is_zero (latitude photo)) || negb (is_zero (longitude photo)).

(** The quick action "view on map" is rendered. *)
Definition showsMapButton (photo : PhotoMetadata) : bool :=
  negb (isProcessing photo) && hasLocation photo.

End PhotoCard.

(* ===================================================================== *)
(** * components/MapView.tsx: the tray of unplaced photos, dragging *)
(* ===================================================================== *)

Module Tray.

Import MapView.

Definition countryLabel (photo : PhotoMetadata) : string :=
  if isProcessing photo then "Analyzing..." else or_string (country photo) "Unmapped".

(** The reducer of [unknownFolders]: [acc[countryLabel]] is an array the
    reducer has put there, or is inherited and has no [push] (the call
    throws), or is absent. *)
Definition folder_step (acc : option (gmap string (list PhotoMetadata)))
    (photo : PhotoMetadata) : option (gmap string (list PhotoMetadata)) :=
  match acc with
  | None => None
  | Some folders =>
      let label := countryLabel photo in
      match folders !! label with
      | Some items => Some (<[label := (items ++ [photo])%list]> folders)
      | None =>
          if inherited label then None
          else Some (<[label := [photo]]> folders)
      end
  end.

(** [None] when the reducer throws. *)
Definition unknownFolders (unknown : list PhotoMetadata)
    : option (gmap string (list PhotoMetadata)) :=
  fold_left folder_step unknown (Some ∅).

(** The [dragend] handler of a cluster marker: one relocation per member. *)
Definition dragend (cluster : ClusterItem) (lat lng : number)
    : M (list (option App.Relocation)) :=
  DbService.mapM (fun photoId => App.updatePhotoLocation_begin photoId lat lng)
                 (c_photoIds cluster).

End Tray.

(* ===================================================================== *)
(** * components/CalendarView.tsx and components/TimelineView.tsx *)
(* ===================================================================== *)

Module CalendarView.

(** A value of [photoCountsByDate]: a count, or what [+ 1] makes of an
    inherited property (a text that is not a number). *)
Inductive Cell :=
| Count (n : Z)
| NotANumber.

(** [acc[k]]: own, inherited, or [undefined]. *)
Definition read_cell (acc : gmap string Cell) (k : string) : option Cell :=
  match acc !! k with
  | Some c => Some c
  | None => if inherited k then Some NotANumber else None
  end.

(** [acc[date] = (acc[date] || 0) + 1]; assigning a primitive to
    [__proto__] changes nothing. *)
Definition count_step (acc : gmap string Cell) (p : PhotoMetadata) : gmap string Cell :=
  let v :=
    match read_cell acc (date p) with
    | Some (Count n) => Count ((if n =? 0 then 0 else n) + 1)
    | Some NotANumber => NotANumber
    | None => Count (0 + 1)
    end in
  if String.eqb (date p) "__proto__" then acc else <[date p := v]> acc.

Definition photoCountsByDate (photos : list PhotoMetadata) : gmap string Cell :=
  fold_left count_step photos ∅.

(** The key of a day of the grid. *)
Definition dateStr (day : Date) : string :=
  String_ (getFullYear day) ++ "-" ++ padStart 2 "0" (String_ (getMonth day + 1))
    ++ "-" ++ padStart 2 "0" (String_ (getDate day)).

(** [photoCountsByDate[dateStr] || 0]. *)
Definition dayCount (counts : gmap string Cell) (key : string) : Cell :=
  match read_cell counts key with
  | Some (Count n) => Count n
  | Some NotANumber => NotANumber
  | None => Count 0
  end.

(** [count > 0]: the day shows its badge and reacts to a click. *)
Definition selectable (c : Cell) : bool :=
  match c with
  | Count n => 0 <? n
  | NotANumber => false
  end.

End CalendarView.

Module TimelineView.

(** [photos.filter(p => p.date === date)]. *)
Definition dayPhotos (date0 : string) (photos : list PhotoMetadata) : list PhotoMetadata :=
  List.filter (fun p => String.eqb (date p) date0) photos.

End TimelineView.

(* ===================================================================== *)
(** * services/geminiService.ts *)
(* ===================================================================== *)

Module GeminiService.

(** How a call of the generative model goes: building the client throws
    (outside the [try]), the request rejects, or a text comes back. *)
Inductive ModelCall (A : Type) : Type :=
| ClientThrows
| RequestRejects
| Answers (a : A).
Arguments ClientThrows {A}.
Arguments RequestRejects {A}.
Arguments Answers {A} a.

(** What becomes of the text of [analyzeImage]: it holds no [{...}], the
    braces do not parse, or they parse to a result. *)
Inductive Parsed :=
| NoJson
| BadJson
| Json (result : AnalysisResult).

Definition UNKNOWN_PLACE : string := "不明な場所".
Definition UNKNOWN_COUNTRY : string := "不明".
Definition ANALYSIS_FAILED : string := "解析に失敗しました".
Definition IDENTIFIED_PLACE : string := "特定された地点".

(** The object the [catch] of [analyzeImage] returns; [today] is
    [new Date().toLocaleDateString('ja-JP')]. *)
Definition fallback (today : string) : AnalysisResult :=
  mkAnalysis UNKNOWN_PLACE (Has UNKNOWN_COUNTRY) (S754_zero false) (S754_zero false)
             today ANALYSIS_FAILED.

Definition analyzeImage (today : string) (call : ModelCall Parsed) : App.Analysis :=
  match call with
  | ClientThrows => App.AnalysisThrows
  | RequestRejects => App.AnalysisReturns (fallback today)
  | Answers NoJson => App.AnalysisReturns (fallback today)
  | Answers BadJson => App.AnalysisReturns (fallback today)
  | Answers (Json result) => App.AnalysisReturns result
  end.

(** [identifyLocation]; the answer is the text of the response once
    trimmed.  [None] when building the client throws. *)
Definition identifyLocation (call : ModelCall string) : option string :=
  match call with
  | ClientThrows => None
  | RequestRejects => Some App.COULD_NOT_IDENTIFY
  | Answers trimmed => Some (if String.eqb trimmed "" then IDENTIFIED_PLACE else trimmed)
  end.

(** The reply [updatePhotoLocation] gets from [identifyLocation], given how
    the write to the database that follows it fares. *)
Definition locationReply (call : ModelCall string) (o : io) : App.LocationReply :=
  match identifyLocation call with
  | Some aiLocationName => App.Identified aiLocationName o
  | None => App.IdentifyThrows
  end.

End GeminiService.

(* ===================================================================== *)
(** * A reference engine *)
(* ===================================================================== *)

(** One implementation of the builtins, on which the program can be run on
    concrete inputs: dates are read in UTC, [new Date(s)] accepts the form
    [Y-M-D], [toFixed] prints in fixed notation at every magnitude, and the
    object URLs are numbered. *)
Module Reference.

(** The civil date of a day count from 1970-01-01. *)
Definition civil_from_days (days : Z) : Date :=
  let z := days + 719468 in
  let era := z / 146097 in
  let doe := z - era * 146097 in
  let yoe := (doe - doe / 1460 + doe / 36524 - doe / 146096) / 365 in
  let doy := doe - (365 * yoe + yoe / 4 - yoe / 100) in
  let mp := (5 * doy + 2) / 153 in
  let d := doy - (153 * mp + 2) / 5 + 1 in
  let m := if mp <? 10 then mp + 3 else mp - 9 in
  let y := yoe + era * 400 + (if m <=? 2 then 1 else 0) in
  mkDate y (m - 1) d.

Definition ref_Date_ofMillis (ms : Z) : Date := civil_from_days (ms / 86400000).

Fixpoint all_digits (s : string) : bool :=
  match s with
  | String c s' => is_digit c && all_digits s'
  | EmptyString => true
  end.

(** What precedes the first hyphen, and what follows it. *)
Fixpoint split_hyphen (s : string) : string * option string :=
  match s with
  | String c s' =>
      if Ascii.eqb c "-" then (EmptyString, Some s')
      else let '(a, b) := split_hyphen s' in (String c a, b)
  | EmptyString => (EmptyString, None)
  end.

Definition ref_Date_parse (s : string) : option Date :=
  match split_hyphen s with
  | (ys, Some rest) =>
      match split_hyphen rest with
      | (ms, Some ds) =>
          let y := parseInt ys in
          let m := parseInt ms in
          let d := parseInt ds in
          if all_digits ys && all_digits ms && all_digits ds
             && negb (String.eqb ys "") && (1 <=? m) && (m <=? 12) && (1 <=? d) && (d <=? 31)
          then Some (mkDate y (m - 1) d)
          else None
      | _ => None
      end
  | _ => None
  end.

(** The integer nearest to [m * 2^e * 10^6], the larger one on a tie. *)
Definition scaled6 (m : positive) (e : Z) : Z :=
  if 0 <=? e then Z.pos m * 2 ^ e * 10 ^ 6
  else (2 * Z.pos m * 10 ^ 6 + 2 ^ (- e)) / 2 ^ (- e + 1).

(** The digits of [n] with a point before the last six. *)
Definition fixed6 (n : Z) : string :=
  let m := padStart 7 "0" (String_ n) in
  let k := (String.length m - 6)%nat in
  substring 0 k m ++ "." ++ substring k 6 m.

Definition ref_toFixed6 (x : number) : string :=
  match x with
  | S754_nan => "NaN"
  | S754_infinity s => if s then "-Infinity" else "Infinity"
  | S754_zero _ => "0.000000"
  | S754_finite s m e => (if s then "-" else "") ++ fixed6 (scaled6 m e)
  end.

Definition ref_objectURL (n : nat) : string := "blob:visionsort/" ++ String_ (Z.of_nat n).

Definition engine : Engine :=
  {| Date_parse := ref_Date_parse;
     Date_ofMillis := ref_Date_ofMillis;
     toFixed6 := ref_toFixed6;
     objectURL := ref_objectURL |}.

End Reference.

(* ===================================================================== *)
(** * Vocabulary of the properties *)
(* ===================================================================== *)

Import App MapView.
Local Open Scope list_scope.

(** The ids of a list of records, in order. *)
Definition ids (prev : list PhotoMetadata) : list string := id <$> prev.

(** The two operations of the record store, with what the environment
    answers to each. *)
Inductive StoreOp :=
| Upsert (o : io) (photo : PhotoMetadata)
| Delete (confirmed : bool) (o : io) (photoId : string).

Definition apply_op (op : StoreOp) : M unit :=
  match op with
  | Upsert o photo => addOrUpdatePhoto o photo
  | Delete confirmed o photoId => handleDeletePhoto confirmed o photoId
  end.

Definition run_ops (ops : list StoreOp) (w : World) : World :=
  fold_left (fun w op => exec (apply_op op) w) ops w.

(** Two records that agree on every property but [url]. *)
Definition same_but_url (p q : PhotoMetadata) : Prop :=
  id p = id q ∧ fileBlob p = fileBlob q ∧ name p = name q
  ∧ locationName p = locationName q ∧ country p = country q
  ∧ latitude p = latitude q ∧ longitude p = longitude q ∧ date p = date q
  ∧ description p = description q ∧ isProcessing p = isProcessing q
  ∧ manuallyPlaced p = manuallyPlaced q.

(** The calls that write to the database. *)
Inductive DbCall :=
| CallSavePhoto (o : io) (photo : PhotoMetadata)
| CallDeletePhoto (o : io) (photoId : string)
| CallSaveNote (o : io) (photoId note : string)
| CallClearAllData (o : io).

Definition db_call (c : DbCall) : M unit :=
  match c with
  | CallSavePhoto o photo => DbService.savePhoto o photo
  | CallDeletePhoto o photoId => DbService.deletePhoto o photoId
  | CallSaveNote o photoId note => DbService.saveNote o photoId note
  | CallClearAllData o => DbService.clearAllData o
  end.

Definition run_calls (calls : list DbCall) (w : World) : World :=
  fold_left (fun w c => exec (db_call c) w) calls w.

Definition no_url_stored (d : DB) : Prop :=
  ∀ k row, store_photos d !! k = Some row -> url row = Missing.

(** [p] is the row [row] with a display reference minted between the URL
    tables [us] and [us']: a URL that was not in [us] and resolves in [us']
    to the blob of the row, or the empty string when the row has no blob. *)
Definition revived `{Engine} (us us' : list Blob) (row p : PhotoMetadata) : Prop :=
  same_but_url row p
  ∧ match truthy_obj (fileBlob row) with
    | Some b => ∃ n, url p = Has (objectURL n) ∧ (length us <= n)%nat ∧ us' !! n = Some b
    | None => url p = Has ""
    end.

(** [s] begins with [n] digits. *)
Fixpoint digits_prefix (n : nat) (s : string) : bool :=
  match n with
  | O => true
  | S n' =>
      match s with
      | String c s' => is_digit c && digits_prefix n' s'
      | EmptyString => false
      end
  end.

(** No run of eight digits of [pre ++ rest] begins inside [pre]. *)
Fixpoint no_run8_within (pre rest : string) : bool :=
  match pre with
  | String _ pre' => negb (digits_prefix 8 (pre ++ rest)%string) && no_run8_within pre' rest
  | EmptyString => true
  end.

Definition str4 (a b c d : ascii) : string := String a (String b (String c (String d ""))).

Definition str2 (a b : ascii) : string := String a (String b "").

(** Eight characters followed by [post]. *)
Definition run8 (c1 c2 c3 c4 c5 c6 c7 c8 : ascii) (post : string) : string :=
  String c1 (String c2 (String c3 (String c4
    (String c5 (String c6 (String c7 (String c8 post))))))).

Definition digit_table : list (ascii * Z) :=
  [("0", 0); ("1", 1); ("2", 2); ("3", 3); ("4", 4);
   ("5", 5); ("6", 6); ("7", 7); ("8", 8); ("9", 9)]%char.

(** No hyphen in [s]. *)
Fixpoint no_hyphen (s : string) : bool :=
  match s with
  | String c s' => negb (Ascii.eqb c "-") && no_hyphen s'
  | EmptyString => true
  end.

(** [s] is not empty and has no hyphen after its first character: the shape
    of what [toFixed] prints, where a hyphen can only be the sign. *)
Definition sign_leads (s : string) : bool :=
  match s with
  | String _ s' => no_hyphen s'
  | EmptyString => false
  end.

(** The cluster a first member opens. *)
Definition opened (photo : PhotoMetadata) : ClusterItem :=
  mkCluster (locationName photo) 0 (latitude photo) (longitude photo) [] (url photo).

(** The cluster at one key, followed through the reduction. *)
Definition grow_step `{Engine} (k : string) (oc : option ClusterItem) (photo : PhotoMetadata)
    : option ClusterItem :=
  if decide (cluster_key photo = k)
  then Some (add_member (id photo) (default (opened photo) oc))
  else oc.

(** The photos of [mapped] whose key is [k], in order. *)
Definition members `{Engine} (k : string) (mapped : list PhotoMetadata) : list PhotoMetadata :=
  filter (fun p => cluster_key p = k) mapped.

(** The statement that a valid date in any run of eight digits of the file
    name decides the result, wherever the run is. *)
Definition any_date_run_wins `{Engine} : Prop :=
  ∀ (pre post : string) (c1 c2 c3 c4 c5 c6 c7 c8 : ascii) (aiDateStr : string)
    (fileDate : Date),
    let y := 1000 * digit_val c1 + 100 * digit_val c2 + 10 * digit_val c3 + digit_val c4 in
    let m := 10 * digit_val c5 + digit_val c6 in
    let d := 10 * digit_val c7 + digit_val c8 in
    forallb is_digit [c1; c2; c3; c4; c5; c6; c7; c8] = true ->
    1980 < y < 2100 -> 1 <= m <= 12 -> 1 <= d <= 31 ->
    parseSmartDate (pre ++ run8 c1 c2 c3 c4 c5 c6 c7 c8 post)%string aiDateStr fileDate
    = (str4 c1 c2 c3 c4 ++ "-" ++ str2 c5 c6 ++ "-" ++ str2 c7 c8)%string.

(** Concrete files, replies and sessions. *)
Module Samples.

Definition jpeg : Blob := mkBlob "image/jpeg" "JFIF".

(** Last modified on 2024-01-01 (UTC). *)
Definition picnic : File := mkFile "IMG_20230714_picnic.jpg" 1704067200000 jpeg.

Definition n35 : number := S754_finite false 35 0.
Definition n139 : number := S754_finite false 139 0.
Definition n10 : number := S754_finite false 5 1.
Definition n20 : number := S754_finite false 5 2.
Definition zero : number := S754_zero false.

Definition kamakura : AnalysisResult :=
  mkAnalysis "Kamakura" (Has "Japan") n35 n139 "2024/03/10" "beach".

Definition photo_at (photoId : string) (blob : field Blob) (place : string)
    (lat lng : number) : PhotoMetadata :=
  {| id := photoId; url := Has "blob:visionsort/0"; fileBlob := blob; name := "a.jpg";
     locationName := place; country := Has "Japan"; latitude := lat; longitude := lng;
     date := "2024-03-05"; description := "beach"; isProcessing := false;
     manuallyPlaced := Has false |}.

(** An update of the record [a] that has neither blob nor [manuallyPlaced]
    and whose [country] is [undefined]. *)
Definition hakone_update : PhotoMetadata :=
  {| id := "a"; url := Has "blob:visionsort/7"; fileBlob := Missing; name := "a.jpg";
     locationName := "Hakone"; country := Undefined; latitude := n10; longitude := n20;
     date := "2024-03-06"; description := "lake"; isProcessing := false;
     manuallyPlaced := Missing |}.

Definition with_photos (l : list PhotoMetadata) : World :=
  mkWorld (mkApp l ∅ None None) emptyDB [] [].

Definition album : list PhotoMetadata :=
  [photo_at "a" (Has jpeg) "Kamakura" n35 n139;
   photo_at "b" (Has jpeg) "Enoshima" n35 n139;
   photo_at "c" Missing "Somewhere" n10 n20;
   photo_at "d" (Has jpeg) "Nowhere" zero zero].

End Samples.

(* ===================================================================== *)
(** * Properties *)
(* ===================================================================== *)


(** ** Spreading *)

Section Spread.

Lemma spread_field_idem {A} (a b : field A) :
  spread_field (spread_field a b) b = spread_field a b.
Proof. by destruct b. Qed.

Lemma spread_field_self {A} (a : field A) : spread_field a a = a.
Proof. by destruct a. Qed.

Lemma spread_field_missing {A} (a : field A) : spread_field a Missing = a.
Proof. done. Qed.

Lemma spread_id older newer : id (spread older newer) = id newer.
Proof. done. Qed.

Lemma spread_idem older newer : spread (spread older newer) newer = spread older newer.
Proof. unfold spread; simpl. by rewrite !spread_field_idem. Qed.

Lemma spread_self p : spread p p = p.
Proof. destruct p; unfold spread; simpl. by rewrite !spread_field_self. Qed.

End Spread.

(** ** The in-memory record store *)

Section Store.

Implicit Types (prev : list PhotoMetadata) (photo p : PhotoMetadata).

Lemma upsert_found photo prev i existing :
  list_find (fun p => id p = id photo) prev = Some (i, existing) ->
  upsert photo prev = <[i := spread existing photo]> prev.
Proof. intros Hf. unfold upsert. by rewrite Hf. Qed.

Lemma upsert_fresh photo prev :
  id photo ∉ ids prev -> upsert photo prev = prev ++ [photo].
Proof.
  intros Hn. unfold upsert.
  destruct (list_find _ prev) as [[i e]|] eqn:Hf; [|done].
  apply list_find_Some in Hf as (Hi & He & _).
  exfalso. apply Hn. unfold ids. rewrite <- He.
  apply list_elem_of_fmap_2. by eapply list_elem_of_lookup_2.
Qed.

Lemma list_find_id_None photo prev :
  list_find (fun p => id p = id photo) prev = None -> id photo ∉ ids prev.
Proof.
  intros Hf Hin. apply list_find_None in Hf.
  apply list_elem_of_fmap in Hin as (p & Hp & Hin).
  rewrite Forall_forall in Hf. by apply (Hf p).
Qed.

(** An upsert never changes which id sits at which index. *)
Lemma upsert_ids photo prev :
  ids (upsert photo prev)
  = if decide (id photo ∈ ids prev) then ids prev else ids prev ++ [id photo].
Proof.
  unfold upsert.
  destruct (list_find _ prev) as [[i e]|] eqn:Hf.
  - pose proof Hf as Hf'. apply list_find_Some in Hf' as (Hi & He & _).
    rewrite decide_True.
    + unfold ids. rewrite list_fmap_insert. simpl.
      apply list_insert_id. rewrite list_lookup_fmap, Hi. simpl. by rewrite He.
    + unfold ids. rewrite <- He. apply list_elem_of_fmap_2.
      by eapply list_elem_of_lookup_2.
  - rewrite decide_False by by apply list_find_id_None.
    unfold ids. by rewrite fmap_app.
Qed.

Lemma upsert_idem photo prev : upsert photo (upsert photo prev) = upsert photo prev.
Proof.
  destruct (list_find (fun p => id p = id photo) prev) as [[i e]|] eqn:Hf.
  - rewrite (upsert_found _ _ _ _ Hf).
    apply list_find_Some in Hf as (Hi & He & Hlt).
    assert (Hf2 : list_find (fun p => id p = id photo) (<[i := spread e photo]> prev)
                  = Some (i, spread e photo)).
    { apply list_find_Some. split_and!.
      - apply list_lookup_insert_eq. by eapply lookup_lt_Some.
      - done.
      - intros j y Hj Hji. rewrite list_lookup_insert_ne in Hj by lia. by eapply Hlt. }
    rewrite (upsert_found _ _ _ _ Hf2).
    by rewrite list_insert_insert_eq, spread_idem.
  - pose proof (list_find_id_None _ _ Hf) as Hn.
    rewrite (upsert_fresh _ _ Hn).
    assert (Hf2 : list_find (fun p => id p = id photo) (prev ++ [photo])
                  = Some (length prev, photo)).
    { apply list_find_Some. split_and!.
      - by rewrite lookup_app_r, Nat.sub_diag by lia.
      - done.
      - intros j y Hj Hji. rewrite lookup_app_l in Hj by lia.
        apply list_find_None in Hf. rewrite Forall_forall in Hf.
        apply Hf. by eapply list_elem_of_lookup_2. }
    rewrite (upsert_found _ _ _ _ Hf2), spread_self.
    rewrite insert_app_r_alt, Nat.sub_diag by lia. done.
Qed.

Lemma removeById_ids photoId prev :
  ids (removeById photoId prev) = filter (fun x => x ≠ photoId) (ids prev).
Proof.
  unfold removeById, ids. induction prev as [|p prev IH]; [done|].
  rewrite fmap_cons, !filter_cons. simpl.
  destruct (decide (id p ≠ photoId)); by rewrite ?fmap_cons, IH.
Qed.

Lemma removeById_gone photoId prev : photoId ∉ ids (removeById photoId prev).
Proof.
  rewrite removeById_ids. intros Hin. apply list_elem_of_filter in Hin as [Hne _]. done.
Qed.

Lemma removeById_absent photoId prev :
  photoId ∉ ids prev -> removeById photoId prev = prev.
Proof.
  intros Hn. unfold removeById. induction prev as [|p prev IH]; [done|].
  rewrite filter_cons. unfold ids in Hn. rewrite fmap_cons in Hn.
  apply not_elem_of_cons in Hn as [Hne Hn].
  rewrite decide_True by done. by rewrite IH.
Qed.

End Store.

(** ** Running the store operations *)

(** Unfolds a session computation down to the world it produces. *)
Ltac session_simpl := unfold exec, threw; simpl; unfold with_app, with_db; simpl.

Section Operations.

Implicit Types (w : World) (photo : PhotoMetadata).

Lemma addOrUpdatePhoto_app o photo w :
  photos (app (exec (addOrUpdatePhoto o photo) w)) = upsert photo (photos (app w)).
Proof. by destruct o. Qed.

Lemma addOrUpdatePhoto_exec o photo w :
  exec (addOrUpdatePhoto o photo) w
  = mkWorld
      (mkApp (upsert photo (photos (app w))) (diaryNotes (app w))
             (selectedPhotoForModal (app w)) (focusedPhoto (app w)))
      (match o with
       | Succeeds => mkDB (<[id photo := DbService.dataToSave photo]> (store_photos (db w)))
                          (store_notes (db w))
       | Fails => db w
       end)
      (urlStore w) (alerts w).
Proof. by destruct o. Qed.

Lemma handleDeletePhoto_exec o photoId w :
  exec (handleDeletePhoto true o photoId) w
  = match o with
    | Succeeds =>
        mkWorld
          (mkApp (removeById photoId (photos (app w))) (delete photoId (diaryNotes (app w)))
                 None
                 (match focusedPhoto (app w) with
                  | Some p => if decide (id p = photoId) then None else focusedPhoto (app w)
                  | None => None
                  end))
          (mkDB (delete photoId (store_photos (db w))) (delete photoId (store_notes (db w))))
          (urlStore w) (alerts w)
    | Fails => mkWorld (app w) (db w) (urlStore w) (alerts w ++ [DELETE_FAILED_NOTICE])
    end.
Proof. destruct w as [[ps dn sel [foc|]] d us al], o; by session_simpl. Qed.

Lemma handleDeletePhoto_declined o photoId w :
  handleDeletePhoto false o photoId w = (Returned tt, w).
Proof. done. Qed.

Lemma apply_op_NoDup op w :
  NoDup (ids (photos (app w))) -> NoDup (ids (photos (app (exec (apply_op op) w)))).
Proof.
  intros Hnd. destruct op as [o photo|[] o photoId]; simpl.
  - rewrite addOrUpdatePhoto_app, upsert_ids. case_decide; [done|].
    apply NoDup_app. split_and!; [done| |apply NoDup_singleton].
    intros x Hx ->%list_elem_of_singleton. done.
  - rewrite handleDeletePhoto_exec. destruct o; simpl; [|by destruct w as [[]]].
    rewrite removeById_ids. by apply NoDup_filter.
  - done.
Qed.

Lemma run_ops_NoDup ops w :
  NoDup (ids (photos (app w))) -> NoDup (ids (photos (app (run_ops ops w)))).
Proof.
  revert w. induction ops as [|op ops IH]; intros w Hnd; [done|].
  simpl. apply IH. by apply apply_op_NoDup.
Qed.

End Operations.

(** ** Upsert and delete *)

(** C3. Upsert is idempotent: whatever the session and whatever the database
    answers, running [addOrUpdatePhoto] a second time with the same record
    leaves the session (the in-memory list and the durable stores) as the
    first run left it; the in-memory list is the same even when the two
    writes to the database fare differently.  The record that has the id is
    replaced at its index by the spread of the old record and the incoming
    one, which keeps an optional field of the old record when the incoming
    one lacks it; without such a record the incoming one is appended. *)
Theorem upsert_idempotent (o : io) (photo : PhotoMetadata) (w : World) :
  exec (addOrUpdatePhoto o photo) (exec (addOrUpdatePhoto o photo) w)
  = exec (addOrUpdatePhoto o photo) w
  ∧ (∀ o1 o2,
       photos (app (exec (addOrUpdatePhoto o2 photo) (exec (addOrUpdatePhoto o1 photo) w)))
       = photos (app (exec (addOrUpdatePhoto o1 photo) w)))
  ∧ photos (app (exec (addOrUpdatePhoto o photo) w))
    = match list_find (fun p => id p = id photo) (photos (app w)) with
      | Some (i, existing) => <[i := spread existing photo]> (photos (app w))
      | None => photos (app w) ++ [photo]
      end
  ∧ (∀ existing,
       let merged := spread existing photo in
       id merged = id photo ∧ name merged = name photo
       ∧ locationName merged = locationName photo
       ∧ latitude merged = latitude photo ∧ longitude merged = longitude photo
       ∧ date merged = date photo ∧ description merged = description photo
       ∧ isProcessing merged = isProcessing photo
       ∧ url merged = (if url photo is Missing then url existing else url photo)
       ∧ fileBlob merged = (if fileBlob photo is Missing then fileBlob existing else fileBlob photo)
       ∧ country merged = (if country photo is Missing then country existing else country photo)
       ∧ manuallyPlaced merged
         = (if manuallyPlaced photo is Missing then manuallyPlaced existing
            else manuallyPlaced photo)).
Proof.
  split_and!.
  - rewrite !addOrUpdatePhoto_exec. simpl. rewrite upsert_idem.
    destruct o; simpl; [|done]. by rewrite insert_insert_eq.
  - intros o1 o2. by rewrite !addOrUpdatePhoto_app, upsert_idem.
  - rewrite addOrUpdatePhoto_app. unfold upsert.
    by destruct (list_find _ _) as [[i e]|].
  - intros existing. simpl. unfold spread_field.
    by destruct (url photo), (fileBlob photo), (country photo), (manuallyPlaced photo).
Qed.

(** C9. Starting from the empty session, after any sequence of upserts and
    deletes (confirmed or not, with the database succeeding or failing) no
    two records of the in-memory list share an id.  A further upsert leaves
    every record with another id at its index, puts the merged record at the
    index of the record it merges with, keeps the length of the list in that
    case, and appends a record whose id is new. *)
Theorem ids_stay_unique (ops : list StoreOp) :
  let w := run_ops ops emptyWorld in
  NoDup (ids (photos (app w)))
  ∧ ∀ o photo,
      let next := photos (app (exec (addOrUpdatePhoto o photo) w)) in
      (∀ i p, photos (app w) !! i = Some p ->
              next !! i = Some (if decide (id p = id photo) then spread p photo else p))
      ∧ (id photo ∈ ids (photos (app w)) -> length next = length (photos (app w)))
      ∧ (id photo ∉ ids (photos (app w)) -> next = photos (app w) ++ [photo]).
Proof.
  intros w.
  assert (Hnd : NoDup (ids (photos (app w)))).
  { apply run_ops_NoDup. simpl. apply NoDup_nil_2. }
  split; [done|]. intros o photo next. subst next.
  rewrite addOrUpdatePhoto_app.
  generalize dependent (photos (app w)). intros prev Hnd. split_and!.
  - intros i p Hi.
    destruct (list_find (fun p => id p = id photo) prev) as [[j e]|] eqn:Hf.
    + rewrite (upsert_found _ _ _ _ Hf).
      apply list_find_Some in Hf as (Hj & He & _).
      case_decide as Hp.
      * assert (i = j) as ->.
        { eapply (NoDup_lookup (ids prev)); [done| |];
            unfold ids; rewrite list_lookup_fmap; [rewrite Hi|rewrite Hj]; simpl;
            [by rewrite Hp|by rewrite He]. }
        assert (e = p) as -> by congruence.
        apply list_lookup_insert_eq. by eapply lookup_lt_Some.
      * rewrite list_lookup_insert_ne; [done|]. intros ->. congruence.
    + rewrite (upsert_fresh _ _ (list_find_id_None _ _ Hf)).
      rewrite decide_False.
      * rewrite lookup_app_l; [done|]. by eapply lookup_lt_Some.
      * apply list_find_None in Hf. rewrite Forall_forall in Hf.
        apply Hf. by eapply list_elem_of_lookup_2.
  - intros Hin. pose proof (upsert_ids photo prev) as Hids.
    rewrite decide_True in Hids by done.
    apply (f_equal length) in Hids. unfold ids in Hids. by rewrite !length_fmap in Hids.
  - apply upsert_fresh.
Qed.

(** C4. A confirmed delete whose transaction completes removes the record
    and the note of the id from both object stores and from the in-memory
    state, raises nothing and alerts nothing, and touches no other key.  When
    the id is in neither store the stores are unchanged, and likewise the
    list and the notes in memory: deleting what was never there succeeds.  A
    transaction that fails removes neither row. *)
Theorem delete_cascades (photoId : string) (w : World) :
  let w' := exec (handleDeletePhoto true Succeeds photoId) w in
  threw (handleDeletePhoto true Succeeds photoId) w = false
  ∧ threw (DbService.deletePhoto Succeeds photoId) w = false
  ∧ alerts w' = alerts w
  ∧ store_photos (db w') !! photoId = None
  ∧ store_notes (db w') !! photoId = None
  ∧ (photoId ∉ ids (photos (app w')))
  ∧ diaryNotes (app w') !! photoId = None
  ∧ (∀ k, k ≠ photoId ->
       store_photos (db w') !! k = store_photos (db w) !! k
       ∧ store_notes (db w') !! k = store_notes (db w) !! k
       ∧ diaryNotes (app w') !! k = diaryNotes (app w) !! k)
  ∧ (∀ p, id p ≠ photoId -> p ∈ photos (app w) -> p ∈ photos (app w'))
  ∧ (store_photos (db w) !! photoId = None -> store_notes (db w) !! photoId = None ->
     db w' = db w)
  ∧ (photoId ∉ ids (photos (app w)) -> photos (app w') = photos (app w))
  ∧ (diaryNotes (app w) !! photoId = None -> diaryNotes (app w') = diaryNotes (app w))
  ∧ db (exec (DbService.deletePhoto Fails photoId) w) = db w.
Proof.
  intros w'. subst w'. rewrite handleDeletePhoto_exec. simpl. split_and!.
  - done.
  - done.
  - done.
  - apply lookup_delete_eq.
  - apply lookup_delete_eq.
  - apply removeById_gone.
  - apply lookup_delete_eq.
  - intros k Hk. by rewrite !lookup_delete_ne.
  - intros p Hp Hin. unfold removeById. by apply list_elem_of_filter.
  - intros H1 H2. destruct (db w) as [sp sn]; simpl in *.
    by rewrite !delete_id.
  - apply removeById_absent.
  - intros Hn. by apply delete_id.
  - done.
Qed.

(** C5. When the durable delete fails, the user is shown the failure notice
    and nothing else changes: the in-memory state (the list of records, the
    notes, the selection and the focus) and both object stores are exactly
    what they were, so the record and its note are still there. *)
Theorem failed_delete_changes_nothing (photoId : string) (w : World) :
  let w' := exec (handleDeletePhoto true Fails photoId) w in
  alerts w' = alerts w ++ [DELETE_FAILED_NOTICE]
  ∧ app w' = app w
  ∧ db w' = db w
  ∧ (∀ i, photos (app w') !! i = photos (app w) !! i)
  ∧ diaryNotes (app w') !! photoId = diaryNotes (app w) !! photoId
  ∧ store_photos (db w') !! photoId = store_photos (db w) !! photoId
  ∧ store_notes (db w') !! photoId = store_notes (db w) !! photoId.
Proof.
  intros w'. subst w'. rewrite handleDeletePhoto_exec. simpl. done.
Qed.

(** ** Replacing a record by id *)

Section Replace.

Implicit Types (prev : list PhotoMetadata) (v p : PhotoMetadata).

Lemma replaceById_ids photoId v prev :
  id v = photoId -> ids (replaceById photoId v prev) = ids prev.
Proof.
  intros Hv. unfold replaceById, ids. rewrite <- list_fmap_compose.
  apply list_fmap_ext. intros i p _. simpl. by case_decide; simplify_eq.
Qed.

Lemma replaceById_hit photoId v prev p :
  p ∈ replaceById photoId v prev -> id p = photoId -> p = v.
Proof.
  unfold replaceById. intros (q & -> & Hq)%list_elem_of_fmap Hid.
  by case_decide.
Qed.

Lemma replaceById_absent photoId v prev :
  photoId ∉ ids prev -> replaceById photoId v prev = prev.
Proof.
  intros Hn. unfold replaceById. induction prev as [|q prev IH]; [done|].
  unfold ids in Hn. rewrite fmap_cons in Hn. apply not_elem_of_cons in Hn as [Hne Hn].
  rewrite fmap_cons, IH by done. by rewrite decide_False.
Qed.

Lemma markFailed_ids photoId prev : ids (markFailed photoId <$> prev) = ids prev.
Proof.
  unfold ids. rewrite <- list_fmap_compose. apply list_fmap_ext.
  intros i p _. simpl. unfold markFailed. by case_decide.
Qed.

Lemma markFailed_absent photoId prev :
  photoId ∉ ids prev -> markFailed photoId <$> prev = prev.
Proof.
  intros Hn. induction prev as [|q prev IH]; [done|].
  unfold ids in Hn. rewrite fmap_cons in Hn. apply not_elem_of_cons in Hn as [Hne Hn].
  rewrite fmap_cons, IH by done. unfold markFailed. by rewrite decide_False.
Qed.

Lemma list_find_id_Some photoId prev i p :
  list_find (fun q => id q = photoId) prev = Some (i, p) ->
  id p = photoId ∧ photoId ∈ ids prev.
Proof.
  intros (Hi & Hp & _)%list_find_Some. split; [done|].
  unfold ids. rewrite <- Hp. apply list_elem_of_fmap_2. by eapply list_elem_of_lookup_2.
Qed.

End Replace.

(** ** Manual relocation *)


(** C10. When no record with the id has a blob -- the record exists without
    one, or there is no such record -- the updater launches nothing: no
    relocation is pending, so no second phase can run, and neither the
    database nor the URL table nor the alerts change.  A record with the id
    is left with the new coordinates, [manuallyPlaced = true],
    [isProcessing = true] and the placeholder name; when there is no record
    with the id the session is unchanged. *)
Theorem relocation_without_blob (photoId : string) (lat lng : number) (w : World) :
  (∀ p, p ∈ photos (app w) -> id p = photoId -> truthy_obj (fileBlob p) = None) ->
  ∃ w1,
    updatePhotoLocation_begin photoId lat lng w = (Returned None, w1)
    ∧ db w1 = db w ∧ urlStore w1 = urlStore w ∧ alerts w1 = alerts w
    ∧ ids (photos (app w1)) = ids (photos (app w))
    ∧ (∀ p, p ∈ photos (app w1) -> id p = photoId ->
         latitude p = lat ∧ longitude p = lng ∧ manuallyPlaced p = Has true
         ∧ isProcessing p = true ∧ locationName p = RESOLVING_NAME)
    ∧ (photoId ∉ ids (photos (app w)) -> w1 = w).
Proof.
  intros Hnb.
  destruct (list_find (fun p => id p = photoId) (photos (app w))) as [[i photo]|] eqn:Hf.
  - pose proof (list_find_id_Some _ _ _ _ Hf) as [Hid Hin].
    assert (Hb : truthy_obj (fileBlob photo) = None).
    { apply list_find_Some in Hf as (Hi & _ & _).
      apply Hnb; [by eapply list_elem_of_lookup_2|done]. }
    eexists. split_and!.
    + unfold updatePhotoLocation_begin, mbind, session_bind, bind, get. simpl. rewrite Hf.
      simpl. rewrite Hb. reflexivity.
    + done.
    + done.
    + done.
    + session_simpl. by rewrite replaceById_ids.
    + session_simpl. intros p Hp Hpid. by rewrite (replaceById_hit _ _ _ _ Hp Hpid).
    + done.
  - exists w. split_and!; try done.
    + unfold updatePhotoLocation_begin, mbind, session_bind, bind, get. simpl. by rewrite Hf.
    + intros p Hp Hpid. exfalso. apply list_find_None in Hf.
      rewrite Forall_forall in Hf. by apply (Hf p).
Qed.

(** ** Enrichment of a deleted record *)

Section Enrichment.

Context `{Engine}.

Lemma processFile_register_ok (file : File) (w : World) :
  ∃ w1,
    processFile_register Succeeds file w
    = (Returned (objectURL (length (urlStore w))), w1)
    ∧ photoId file ∈ ids (photos (app w1))
    ∧ is_Some (store_photos (db w1) !! photoId file).
Proof.
  eexists. split_and!.
  - unfold processFile_register. reflexivity.
  - session_simpl. rewrite upsert_ids. case_decide; [done|].
    apply elem_of_app. right. by apply list_elem_of_singleton.
  - session_simpl. rewrite lookup_insert_eq. by eexists.
Qed.

(** The reply of the service is merged with an upsert: when the record is
    no longer in the list, the upsert appends it and the row is written. *)
Lemma onload_returns_appends (file : File) (url : string) (result : AnalysisResult)
    (w : World) :
  blob_bytes (file_blob file) ≠ "" ->
  photoId file ∉ ids (photos (app w)) ->
  let w' := exec (processFile_onload file url (AnalysisReturns result) Succeeds) w in
  photos (app w') = photos (app w) ++ [enriched file url result]
  ∧ store_photos (db w') !! photoId file
    = Some (DbService.dataToSave (enriched file url result)).
Proof.
  intros Hne Hn. unfold processFile_onload.
  apply String.eqb_neq in Hne. rewrite Hne. session_simpl. split.
  - by rewrite (upsert_fresh (enriched file url result)).
  - by rewrite lookup_insert_eq.
Qed.

(** The record comes back in memory whatever becomes of the write to the
    database: when the write fails, the handler marks the record that the
    upsert has just appended. *)
Lemma onload_returns_reinserts (file : File) (url : string) (result : AnalysisResult)
    (o : io) (w : World) :
  blob_bytes (file_blob file) ≠ "" ->
  photoId file ∈ ids (photos (app (exec (processFile_onload file url
                                           (AnalysisReturns result) o) w))).
Proof.
  intros Hne. unfold processFile_onload.
  apply String.eqb_neq in Hne. rewrite Hne.
  assert (Hin : photoId file ∈ ids (upsert (enriched file url result) (photos (app w)))).
  { rewrite upsert_ids. case_decide; [done|].
    apply elem_of_app. right. by apply list_elem_of_singleton. }
  destruct o; session_simpl; [done|]. by rewrite markFailed_ids.
Qed.

(** The failure branch maps over the list instead: it cannot add a record. *)
Lemma onload_throws_maps (file : File) (url : string) (o : io) (w : World) :
  photoId file ∉ ids (photos (app w)) ->
  exec (processFile_onload file url AnalysisThrows o) w = w.
Proof.
  intros Hn. unfold processFile_onload.
  destruct (String.eqb _ _); [done|]. session_simpl.
  rewrite markFailed_absent by done. by destruct w as [[]].
Qed.

(** C1 (the code departs from it). A file is registered, its record is
    deleted while the enrichment is in flight, and then the reply of the
    service arrives: the record is back at the end of the in-memory list
    and its row is back in the [photos] store.  Had the service call thrown
    (the record is back in the list even when that last write to the
    database fails).  Had the service call thrown instead, the session would
    have stayed as the delete left it. *)
Theorem orphaned_enrichment_resurrects (file : File) (result : AnalysisResult)
    (w : World) :
  blob_bytes (file_blob file) ≠ "" ->
  ∃ url w1,
    processFile_register Succeeds file w = (Returned url, w1)
    ∧ let w2 := exec (handleDeletePhoto true Succeeds (photoId file)) w1 in
      let w3 := exec (processFile_onload file url (AnalysisReturns result) Succeeds) w2 in
      photoId file ∈ ids (photos (app w1))
      ∧ (photoId file ∉ ids (photos (app w2)))
      ∧ store_photos (db w2) !! photoId file = None
      ∧ photos (app w3) = photos (app w2) ++ [enriched file url result]
      ∧ photoId file ∈ ids (photos (app w3))
      ∧ store_photos (db w3) !! photoId file
        = Some (DbService.dataToSave (enriched file url result))
      ∧ (∀ o, photoId file
              ∈ ids (photos (app (exec (processFile_onload file url
                                          (AnalysisReturns result) o) w2))))
      ∧ (∀ o, exec (processFile_onload file url AnalysisThrows o) w2 = w2).
Proof.
  intros Hne.
  destruct (processFile_register_ok file w) as (w1 & Hreg & Hin & _).
  eexists _, w1. split; [exact Hreg|]. intros w2 w3.
  assert (Hgone : photoId file ∉ ids (photos (app w2))).
  { subst w2. rewrite handleDeletePhoto_exec. simpl. apply removeById_gone. }
  destruct (onload_returns_appends file (objectURL (length (urlStore w))) result w2
              Hne Hgone) as [Hphotos Hrow].
  split_and!; try done.
  - subst w2. rewrite handleDeletePhoto_exec. simpl. apply lookup_delete_eq.
  - subst w3. rewrite Hphotos. unfold ids. rewrite fmap_app.
    apply elem_of_app. right. by apply list_elem_of_singleton.
  - intros o. by apply onload_returns_reinserts.
  - intros o. by apply onload_throws_maps.
Qed.

End Enrichment.

(** ** The display reference and the database *)

Section Persistence.

Context `{Engine}.

Lemma db_call_no_url c w : no_url_stored (db w) -> no_url_stored (db (exec (db_call c) w)).
Proof.
  intros Hinv k row. destruct c as [[] photo|[] photoId|[] photoId note|[]]; session_simpl;
    try apply Hinv.
  - destruct (decide (id photo = k)) as [->|Hne].
    + rewrite lookup_insert_eq. by intros [= <-].
    + rewrite lookup_insert_ne by done. apply Hinv.
  - destruct (decide (photoId = k)) as [->|Hne].
    + by rewrite lookup_delete_eq.
    + rewrite lookup_delete_ne by done. apply Hinv.
  - by rewrite lookup_empty.
Qed.

Lemma run_calls_no_url calls w :
  no_url_stored (db w) -> no_url_stored (db (run_calls calls w)).
Proof.
  revert w. induction calls as [|c calls IH]; intros w Hinv; [done|].
  simpl. apply IH. by apply db_call_no_url.
Qed.

Lemma mapM_revive (rows : list PhotoMetadata) (w : World) :
  ∃ loaded w',
    DbService.mapM DbService.revive rows w = (Returned loaded, w')
    ∧ app w' = app w ∧ db w' = db w ∧ alerts w' = alerts w
    ∧ (∃ extra, urlStore w' = urlStore w ++ extra)
    ∧ Forall2 (revived (urlStore w) (urlStore w')) rows loaded.
Proof.
  revert w. induction rows as [|row rows IH]; intros w.
  - exists [], w. split_and!; try done. exists []. by rewrite app_nil_r.
  - simpl. unfold mbind, session_bind, bind. unfold DbService.revive at 1.
    unfold mbind, session_bind, bind.
    destruct (truthy_obj (fileBlob row)) as [b|] eqn:Hb; simpl.
    + destruct (IH (mkWorld (app w) (db w) (urlStore w ++ [b]) (alerts w)))
        as (loaded & w' & -> & Happ & Hdb & Hal & [extra Hext] & Hall).
      simpl in *. eexists _, w'. split_and!; try done.
      * exists ([b] ++ extra). by rewrite Hext, <- app_assoc.
      * constructor.
        -- split; [done|]. rewrite Hb. exists (length (urlStore w)). split_and!; try done.
           rewrite Hext, <- app_assoc. by rewrite lookup_app_r, Nat.sub_diag by lia.
        -- eapply Forall2_impl; [exact Hall|]. intros r p [Hs Hu]. split; [done|].
           destruct (truthy_obj (fileBlob r)); [|done].
           destruct Hu as (n & Hn1 & Hn2 & Hn3). exists n. split_and!; try done.
           rewrite length_app in Hn2. lia.
    + destruct (IH w) as (loaded & w' & -> & Happ & Hdb & Hal & Hext & Hall).
      eexists _, w'. split_and!; try done.
      constructor; [|done]. split; [done|]. by rewrite Hb.
Qed.

(** C6. The display reference is never written to durable storage:
    [savePhoto] stores, under the id, the record without its [url] and with
    every other property as given (and stores nothing when the request
    fails); after any sequence of calls that write to the database no row
    of the [photos] store has a [url].  [getAllPhotos] returns the rows of
    the store, each with a [url] minted by this very call from the blob the
    row holds (the empty string when the row holds none), and changes
    neither the database nor the in-memory state. *)
Theorem display_reference_never_persisted :
  (∀ o photo w,
     let w' := exec (DbService.savePhoto o photo) w in
     match o with
     | Succeeds =>
         ∃ row, store_photos (db w') !! id photo = Some row
                ∧ url row = Missing ∧ same_but_url photo row
     | Fails => db w' = db w
     end)
  ∧ (∀ calls, no_url_stored (db (run_calls calls emptyWorld)))
  ∧ (∀ w,
       ∃ loaded w',
         DbService.getAllPhotos Succeeds w = (Returned loaded, w')
         ∧ app w' = app w ∧ db w' = db w
         ∧ (∀ row, row ∈ DbService.getAll (store_photos (db w))
                   ↔ ∃ k, store_photos (db w) !! k = Some row)
         ∧ Forall2 (revived (urlStore w) (urlStore w'))
                   (DbService.getAll (store_photos (db w))) loaded).
Proof.
  split_and!.
  - intros [] photo w; session_simpl; [|done].
    eexists. rewrite lookup_insert_eq. split_and!; done.
  - intros calls. apply run_calls_no_url. intros k row. simpl. by rewrite lookup_empty.
  - intros w.
    destruct (mapM_revive (DbService.getAll (store_photos (db w))) w)
      as (loaded & w' & Hrun & Happ & Hdb & _ & _ & Hall).
    exists loaded, w'. split_and!; try done.
    intros row. unfold DbService.getAll. rewrite list_elem_of_fmap. split.
    + intros ([k r] & -> & Hin). exists k.
      rewrite merge_sort_Permutation in Hin. by apply elem_of_map_to_list in Hin.
    + intros [k Hk]. exists (k, row). split; [done|].
      rewrite merge_sort_Permutation. by apply elem_of_map_to_list.
Qed.

End Persistence.

(** ** Date resolution *)

Section DateResolution.

Local Arguments is_digit : simpl never.

Lemma append_cons c a b : (String c a ++ b = String c (a ++ b))%string.
Proof. done. Qed.

Lemma append_nil b : ("" ++ b = b)%string.
Proof. done. Qed.

Lemma is_digit_cases c :
  is_digit c = true ->
  c ∈ ["0"; "1"; "2"; "3"; "4"; "5"; "6"; "7"; "8"; "9"]%char.
Proof.
  destruct c as [[] [] [] [] [] [] [] []]; vm_compute; intros Hc; try discriminate Hc;
    set_solver.
Qed.

Lemma match_here_no_run s : digits_prefix 8 s = false -> match_here s = None.
Proof.
  unfold match_here.
  do 8 (destruct s as [|? s]; simpl; [done|];
        match goal with |- context [is_digit ?c] => destruct (is_digit c) end;
        simpl; [|done]).
  done.
Qed.

Lemma match_here_run c1 c2 c3 c4 c5 c6 c7 c8 post :
  forallb is_digit [c1; c2; c3; c4; c5; c6; c7; c8] = true ->
  match_here (run8 c1 c2 c3 c4 c5 c6 c7 c8 post)
  = Some (str4 c1 c2 c3 c4, str2 c5 c6, str2 c7 c8).
Proof.
  intros Hd. cbn [forallb] in Hd. rewrite !andb_true_iff in Hd.
  destruct Hd as (H1 & H2 & H3 & H4 & H5 & H6 & H7 & H8 & _).
  unfold match_here, run8, str4, str2. cbn [take_digits].
  by rewrite H1, H2, H3, H4, H5, H6, H7, H8.
Qed.

Lemma regex_match_leftmost pre c1 c2 c3 c4 c5 c6 c7 c8 post :
  forallb is_digit [c1; c2; c3; c4; c5; c6; c7; c8] = true ->
  no_run8_within pre (run8 c1 c2 c3 c4 c5 c6 c7 c8 post) = true ->
  regex_match (pre ++ run8 c1 c2 c3 c4 c5 c6 c7 c8 post)%string
  = Some (str4 c1 c2 c3 c4, str2 c5 c6, str2 c7 c8).
Proof.
  intros Hd. induction pre as [|c pre IH]; intros Hno.
  - rewrite append_nil. unfold run8 at 1. cbn [regex_match]. fold (run8 c1 c2 c3 c4 c5 c6 c7 c8 post).
    by rewrite (match_here_run _ _ _ _ _ _ _ _ post Hd).
  - cbn [no_run8_within] in Hno. apply andb_true_iff in Hno as [Hhere Hno].
    apply negb_true_iff, match_here_no_run in Hhere.
    rewrite append_cons. cbn [regex_match]. rewrite <- append_cons, Hhere. by apply IH.
Qed.

Lemma parseInt4 c1 c2 c3 c4 :
  forallb is_digit [c1; c2; c3; c4] = true ->
  parseInt (str4 c1 c2 c3 c4)
  = 1000 * digit_val c1 + 100 * digit_val c2 + 10 * digit_val c3 + digit_val c4.
Proof.
  intros Hd. cbn [forallb] in Hd. rewrite !andb_true_iff in Hd.
  destruct Hd as (H1 & H2 & H3 & H4 & _).
  unfold parseInt, str4. cbn [parseInt_acc]. rewrite H1, H2, H3, H4. lia.
Qed.

Lemma parseInt2 c1 c2 :
  forallb is_digit [c1; c2] = true ->
  parseInt (str2 c1 c2) = 10 * digit_val c1 + digit_val c2.
Proof.
  intros Hd. cbn [forallb] in Hd. rewrite !andb_true_iff in Hd.
  destruct Hd as (H1 & H2 & _).
  unfold parseInt, str2. cbn [parseInt_acc]. rewrite H1, H2. lia.
Qed.

Lemma digit_in_table c : is_digit c = true -> (c, digit_val c) ∈ digit_table.
Proof.
  destruct c as [[] [] [] [] [] [] [] []]; vm_compute; intros Hc; try discriminate Hc;
    set_solver.
Qed.

(** Enumerates the ten cases of a digit and what it stands for. *)
Ltac each_digit H :=
  unfold digit_table in H;
  repeat (apply elem_of_cons in H as [[= -> ->]|H]); [..|by apply elem_of_nil in H].

Lemma pad2_table c1 c2 v1 v2 :
  (c1, v1) ∈ digit_table -> (c2, v2) ∈ digit_table ->
  pad2 (10 * v1 + v2) = str2 c1 c2.
Proof. intros H1 H2. each_digit H1; each_digit H2; vm_compute; reflexivity. Qed.

(** Printing a two-digit value with [padStart(2, '0')] gives back the two
    digits. *)
Lemma pad2_digits c1 c2 :
  forallb is_digit [c1; c2] = true ->
  pad2 (10 * digit_val c1 + digit_val c2) = str2 c1 c2.
Proof.
  intros Hd. cbn [forallb] in Hd. rewrite !andb_true_iff in Hd.
  destruct Hd as (H1 & H2 & _). by apply pad2_table; apply digit_in_table.
Qed.

Lemma String_year_table c1 c2 c3 c4 v1 v2 v3 v4 :
  (c1, v1) ∈ digit_table -> (c2, v2) ∈ digit_table ->
  (c3, v3) ∈ digit_table -> (c4, v4) ∈ digit_table ->
  1980 < 1000 * v1 + 100 * v2 + 10 * v3 + v4 < 2100 ->
  String_ (1000 * v1 + 100 * v2 + 10 * v3 + v4) = str4 c1 c2 c3 c4.
Proof.
  intros H1 H2 H3 H4 Hr.
  assert (B2 : 0 <= v2 <= 9) by (clear -H2; each_digit H2; lia).
  assert (B3 : 0 <= v3 <= 9) by (clear -H3; each_digit H3; lia).
  assert (B4 : 0 <= v4 <= 9) by (clear -H4; each_digit H4; lia).
  each_digit H1; try lia; each_digit H2; try lia;
    each_digit H3; try lia; each_digit H4; try lia; vm_compute; reflexivity.
Qed.

(** Printing a year between 1981 and 2099 gives back its four digits. *)
Lemma String_year c1 c2 c3 c4 :
  forallb is_digit [c1; c2; c3; c4] = true ->
  1980 < 1000 * digit_val c1 + 100 * digit_val c2 + 10 * digit_val c3 + digit_val c4 < 2100 ->
  String_ (1000 * digit_val c1 + 100 * digit_val c2 + 10 * digit_val c3 + digit_val c4)
  = str4 c1 c2 c3 c4.
Proof.
  intros Hd. cbn [forallb] in Hd. rewrite !andb_true_iff in Hd.
  destruct Hd as (H1 & H2 & H3 & H4 & _). by apply String_year_table; apply digit_in_table.
Qed.

(** Only the leftmost run is looked at: when it is out of range, the file
    name yields no date, whatever follows the run. *)
Lemma leftmost_run_rejected (pre post : string) (c1 c2 c3 c4 c5 c6 c7 c8 : ascii) :
  let y := 1000 * digit_val c1 + 100 * digit_val c2 + 10 * digit_val c3 + digit_val c4 in
  let m := 10 * digit_val c5 + digit_val c6 in
  let d := 10 * digit_val c7 + digit_val c8 in
  forallb is_digit [c1; c2; c3; c4; c5; c6; c7; c8] = true ->
  no_run8_within pre (run8 c1 c2 c3 c4 c5 c6 c7 c8 post) = true ->
  ¬ (1980 < y < 2100 ∧ 1 <= m <= 12 ∧ 1 <= d <= 31) ->
  extractDateFromFilename (pre ++ run8 c1 c2 c3 c4 c5 c6 c7 c8 post)%string = None.
Proof.
  intros y m d Hd Hleft Hbad.
  pose proof Hd as Hd'. cbn [forallb] in Hd'. rewrite !andb_true_iff in Hd'.
  destruct Hd' as (H1 & H2 & H3 & H4 & H5 & H6 & H7 & H8 & _).
  unfold extractDateFromFilename.
  rewrite (regex_match_leftmost _ _ _ _ _ _ _ _ _ _ Hd Hleft).
  rewrite parseInt4, !parseInt2 by (cbn [forallb]; by rewrite ?H1, ?H2, ?H3, ?H4, ?H5, ?H6, ?H7, ?H8).
  fold y m d.
  destruct ((1980 <? y) && (y <? 2100) && (1 <=? m) && (m <=? 12)
            && (1 <=? d) && (d <=? 31)) eqn:Hrange; [|done].
  exfalso. apply Hbad.
  rewrite !andb_true_iff, !Z.ltb_lt, !Z.leb_le in Hrange. lia.
Qed.

Context `{Engine}.

(** C2, amended. When the leftmost run of eight digits of the file name
    reads as a year strictly between 1980 and 2100, a month from 1 to 12
    and a day from 1 to 31, date resolution returns these digits as
    [YYYY-MM-DD], whatever the date the service proposes and whatever the
    time stamp of the file. *)
Theorem leftmost_date_wins (pre post : string) (c1 c2 c3 c4 c5 c6 c7 c8 : ascii)
    (aiDateStr : string) (fileDate : Date) :
  let y := 1000 * digit_val c1 + 100 * digit_val c2 + 10 * digit_val c3 + digit_val c4 in
  let m := 10 * digit_val c5 + digit_val c6 in
  let d := 10 * digit_val c7 + digit_val c8 in
  forallb is_digit [c1; c2; c3; c4; c5; c6; c7; c8] = true ->
  no_run8_within pre (run8 c1 c2 c3 c4 c5 c6 c7 c8 post) = true ->
  1980 < y < 2100 -> 1 <= m <= 12 -> 1 <= d <= 31 ->
  parseSmartDate (pre ++ run8 c1 c2 c3 c4 c5 c6 c7 c8 post)%string aiDateStr fileDate
  = (str4 c1 c2 c3 c4 ++ "-" ++ str2 c5 c6 ++ "-" ++ str2 c7 c8)%string.
Proof.
  intros y m d Hd Hleft Hy Hm Hday.
  pose proof Hd as Hd'. cbn [forallb] in Hd'. rewrite !andb_true_iff in Hd'.
  destruct Hd' as (H1 & H2 & H3 & H4 & H5 & H6 & H7 & H8 & _).
  assert (Hy4 : forallb is_digit [c1; c2; c3; c4] = true).
  { cbn [forallb]. by rewrite H1, H2, H3, H4. }
  assert (Hm2 : forallb is_digit [c5; c6] = true).
  { cbn [forallb]. by rewrite H5, H6. }
  assert (Hd2 : forallb is_digit [c7; c8] = true).
  { cbn [forallb]. by rewrite H7, H8. }
  unfold parseSmartDate, extractDateFromFilename.
  rewrite (regex_match_leftmost _ _ _ _ _ _ _ _ _ _ Hd Hleft).
  rewrite (parseInt4 _ _ _ _ Hy4), (parseInt2 _ _ Hm2), (parseInt2 _ _ Hd2).
  fold y m d.
  assert (Hrange : (1980 <? y) && (y <? 2100) && (1 <=? m) && (m <=? 12)
                   && (1 <=? d) && (d <=? 31) = true).
  { rewrite !andb_true_iff, !Z.ltb_lt, !Z.leb_le. lia. }
  rewrite Hrange. subst y m d.
  rewrite (String_year _ _ _ _ Hy4 Hy), (pad2_digits _ _ Hm2), (pad2_digits _ _ Hd2).
  done.
Qed.

End DateResolution.

(** ** Map clusters *)

Section Clusters.

Lemma hyphen_splits a a' b b' :
  no_hyphen a = true -> no_hyphen a' = true ->
  (a ++ "-" ++ b = a' ++ "-" ++ b')%string -> a = a' ∧ b = b'.
Proof.
  revert a'. induction a as [|c a IH]; intros [|c' a'] Ha Ha' Heq.
  - rewrite !append_nil in Heq. by injection Heq.
  - rewrite append_nil, append_cons in Heq. injection Heq as <- _.
    by simpl in Ha'.
  - rewrite append_nil, append_cons in Heq. injection Heq as -> _.
    by simpl in Ha.
  - rewrite !append_cons in Heq. injection Heq as -> Heq.
    simpl in Ha, Ha'. apply andb_true_iff in Ha as [_ Ha], Ha' as [_ Ha'].
    destruct (IH a' Ha Ha' Heq) as [-> ->]. done.
Qed.

Lemma signed_splits a a' b b' :
  sign_leads a = true -> sign_leads a' = true ->
  (a ++ "-" ++ b = a' ++ "-" ++ b')%string -> a = a' ∧ b = b'.
Proof.
  destruct a as [|c a], a' as [|c' a']; try done. simpl. intros Ha Ha' Heq.
  rewrite (append_cons c), (append_cons c') in Heq. injection Heq as -> Heq.
  destruct (hyphen_splits _ _ _ _ Ha Ha' Heq) as [-> ->]. done.
Qed.

Context `{Engine}.

Lemma cluster_step_lookup acc photo k :
  cluster_step acc photo !! k = grow_step k (acc !! k) photo.
Proof.
  unfold cluster_step, grow_step. case_decide as Hk.
  - subst k. destruct (acc !! cluster_key photo) as [c|] eqn:Hc.
    + rewrite lookup_alter_eq, Hc. done.
    + rewrite lookup_alter_eq, lookup_insert_eq. done.
  - rewrite lookup_alter_ne by done.
    destruct (acc !! cluster_key photo); [done|]. by rewrite lookup_insert_ne.
Qed.

Lemma clusters_lookup_fold mapped acc k :
  fold_left cluster_step mapped acc !! k = fold_left (grow_step k) mapped (acc !! k).
Proof.
  revert acc. induction mapped as [|p mapped IH]; intros acc; [done|].
  simpl. by rewrite IH, cluster_step_lookup.
Qed.

Lemma grow_from_some k mapped c :
  fold_left (grow_step k) mapped (Some c)
  = Some (mkCluster (c_name c) (c_count c + Z.of_nat (length (members k mapped)))
                    (c_lat c) (c_lng c) (c_photoIds c ++ ids (members k mapped))
                    (c_thumbnailUrl c)).
Proof.
  revert c. induction mapped as [|p mapped IH]; intros c.
  - simpl. destruct c; simpl. by rewrite Z.add_0_r, app_nil_r.
  - simpl. unfold grow_step at 2. unfold members. rewrite filter_cons.
    case_decide.
    + rewrite IH. simpl. unfold members, ids.
      f_equal. f_equal; [lia|]. by rewrite <- app_assoc.
    + by rewrite IH.
Qed.

Lemma grow_from_none k mapped :
  fold_left (grow_step k) mapped None
  = match members k mapped with
    | [] => None
    | first :: rest =>
        Some (mkCluster (locationName first) (Z.of_nat (length (first :: rest)))
                        (latitude first) (longitude first) (ids (first :: rest))
                        (url first))
    end.
Proof.
  induction mapped as [|p mapped IH]; [done|].
  simpl. unfold grow_step at 2. unfold members. rewrite filter_cons.
  case_decide; [|done].
  rewrite grow_from_some. simpl. unfold members, ids.
  f_equal. f_equal. lia.
Qed.

Lemma clusters_lookup mapped k :
  clusters mapped !! k
  = match members k mapped with
    | [] => None
    | first :: rest =>
        Some (mkCluster (locationName first) (Z.of_nat (length (first :: rest)))
                        (latitude first) (longitude first) (ids (first :: rest))
                        (url first))
    end.
Proof.
  unfold clusters. by rewrite clusters_lookup_fold, lookup_empty, grow_from_none.
Qed.

Lemma NoDup_ids_inj (l : list PhotoMetadata) p q :
  NoDup (ids l) -> p ∈ l -> q ∈ l -> id p = id q -> p = q.
Proof.
  intros Hnd (i & Hi)%list_elem_of_lookup (j & Hj)%list_elem_of_lookup Hid.
  assert (i = j) as ->; [|congruence].
  eapply (NoDup_lookup (ids l)); [done| |]; unfold ids; rewrite list_lookup_fmap.
  - by rewrite Hi.
  - rewrite Hj. simpl. by rewrite Hid.
Qed.

Lemma mappedPhotos_elem photos p :
  p ∈ mappedPhotos photos <-> p ∈ photos ∧ located p = true.
Proof. unfold mappedPhotos. by rewrite !list_elem_of_In, filter_In. Qed.

Lemma mappedPhotos_NoDup photos :
  NoDup (ids photos) -> NoDup (ids (mappedPhotos photos)).
Proof.
  unfold mappedPhotos, ids. induction photos as [|p photos IH]; [done|].
  rewrite fmap_cons. intros [Hp Hnd]%NoDup_cons. simpl.
  destruct (located p); [|by apply IH].
  rewrite fmap_cons. apply NoDup_cons. split; [|by apply IH].
  intros (q & Hq & Hin)%list_elem_of_fmap. apply Hp.
  apply list_elem_of_In, filter_In in Hin as [Hin _].
  rewrite Hq. apply list_elem_of_fmap_2. by apply list_elem_of_In.
Qed.

Lemma members_elem k mapped p : p ∈ members k mapped <-> cluster_key p = k ∧ p ∈ mapped.
Proof. unfold members. by rewrite list_elem_of_filter. Qed.

(** C7. Assume that [toFixed(6)] prints a hyphen only as a leading sign,
    and that no two photos share an id.  Then every located photo belongs
    to the cluster stored under its key; two located photos are listed in
    the same cluster exactly when their latitudes print alike and their
    longitudes print alike at six decimals; and each cluster is made of the
    located photos that have its key, in order: its name is the
    [locationName] of the first of them, its count is their number and its
    [photoIds] are their ids. *)
Theorem clusters_by_rendered_coordinates (photos : list PhotoMetadata) :
  (∀ x, sign_leads (toFixed6 x) = true) ->
  NoDup (ids photos) ->
  let mapped := mappedPhotos photos in
  let cl := clusters mapped in
  (∀ p, p ∈ mapped <-> p ∈ photos ∧ located p = true)
  ∧ (∀ p, p ∈ mapped -> ∃ c, cl !! cluster_key p = Some c ∧ id p ∈ c_photoIds c)
  ∧ (∀ p q, p ∈ mapped -> q ∈ mapped ->
       (∃ k c, cl !! k = Some c ∧ id p ∈ c_photoIds c ∧ id q ∈ c_photoIds c)
       <-> (toFixed6 (latitude p) = toFixed6 (latitude q)
            ∧ toFixed6 (longitude p) = toFixed6 (longitude q)))
  ∧ (∀ k c, cl !! k = Some c ->
       ∃ first rest,
         members k mapped = first :: rest
         ∧ c_name c = locationName first
         ∧ c_count c = Z.of_nat (length (first :: rest))
         ∧ c_photoIds c = ids (first :: rest)
         ∧ c_lat c = latitude first ∧ c_lng c = longitude first
         ∧ c_thumbnailUrl c = url first).
Proof.
  intros Hshape Hnd mapped cl.
  assert (Hndm : NoDup (ids mapped)) by by apply mappedPhotos_NoDup.
  assert (Hown : ∀ p, p ∈ mapped ->
            ∃ c, cl !! cluster_key p = Some c ∧ c_photoIds c = ids (members (cluster_key p) mapped)
                 ∧ id p ∈ c_photoIds c).
  { intros p Hp. subst cl. rewrite clusters_lookup.
    assert (Hm : p ∈ members (cluster_key p) mapped) by by apply members_elem.
    destruct (members (cluster_key p) mapped) as [|first rest] eqn:Hmem.
    - by apply elem_of_nil in Hm.
    - eexists. split_and!; [done|done|].
      change (id p ∈ id <$> first :: rest). by apply list_elem_of_fmap_2. }
  assert (Hback : ∀ p k c, p ∈ mapped -> cl !! k = Some c -> id p ∈ c_photoIds c ->
            cluster_key p = k).
  { intros p k c Hp Hk Hin. subst cl. rewrite clusters_lookup in Hk.
    destruct (members k mapped) as [|first rest] eqn:Hmem; [done|].
    injection Hk as <-. change (id p ∈ ids (first :: rest)) in Hin.
    rewrite <- Hmem in Hin. apply list_elem_of_fmap in Hin as (p' & Hid & Hp').
    apply members_elem in Hp' as [Hk' Hp'].
    by rewrite (NoDup_ids_inj mapped p p' Hndm Hp Hp' Hid). }
  split_and!.
  - apply mappedPhotos_elem.
  - intros p Hp. destruct (Hown p Hp) as (c & Hc & _ & Hin). eauto.
  - intros p q Hp Hq. split.
    + intros (k & c & Hk & Hpin & Hqin).
      pose proof (Hback p k c Hp Hk Hpin) as Hkp.
      pose proof (Hback q k c Hq Hk Hqin) as Hkq.
      rewrite <- Hkq in Hkp. unfold cluster_key in Hkp.
      by apply signed_splits in Hkp.
    + intros [Hlat Hlng].
      assert (Hkey : cluster_key q = cluster_key p).
      { unfold cluster_key. by rewrite Hlat, Hlng. }
      destruct (Hown p Hp) as (c & Hc & Hids & Hin).
      exists (cluster_key p), c. split_and!; [done|done|].
      rewrite Hids. apply (list_elem_of_fmap_2 id). by apply members_elem.
  - intros k c Hk. subst cl. rewrite clusters_lookup in Hk.
    destruct (members k mapped) as [|first rest] eqn:Hmem; [done|].
    injection Hk as <-. by exists first, rest.
Qed.

End Clusters.

(** ** The reference engine prints coordinates with a leading sign only *)

Section ReferenceEngine.

Import Reference.

Lemma no_hyphen_app a b : no_hyphen (a ++ b)%string = no_hyphen a && no_hyphen b.
Proof.
  induction a as [|c a IH]; [done|].
  rewrite append_cons. simpl. by rewrite IH, andb_assoc.
Qed.

Lemma no_hyphen_substring s : ∀ i n, no_hyphen s = true -> no_hyphen (substring i n s) = true.
Proof.
  induction s as [|c s IH]; intros i n Hs.
  - by destruct i, n.
  - simpl in Hs. apply andb_true_iff in Hs as [Hc Hs].
    destruct i as [|i]; [destruct n as [|n]; [done|]|]; simpl.
    + by rewrite Hc, IH.
    + by apply IH.
Qed.

Lemma no_hyphen_zeros k : no_hyphen (repeat_char "0" k) = true.
Proof. induction k as [|k IH]; [done|]. simpl. by rewrite IH. Qed.

Lemma no_hyphen_uint d : no_hyphen (NilEmpty.string_of_uint d) = true.
Proof. induction d; simpl; by rewrite ?IHd. Qed.

Lemma no_hyphen_String_ n : 0 <= n -> no_hyphen (String_ n) = true.
Proof.
  intros Hn. unfold String_. destruct n as [|p|p]; [done| |lia].
  simpl. unfold NilZero.string_of_uint.
  destruct (Pos.to_uint p) eqn:Hp; try (rewrite <- Hp; apply no_hyphen_uint). done.
Qed.

Lemma scaled6_nonneg m e : 0 <= scaled6 m e.
Proof.
  unfold scaled6. destruct (0 <=? e) eqn:He.
  - apply Z.leb_le in He. pose proof (Z.pow_nonneg 2 e). nia.
  - apply Z.leb_gt in He. apply Z.div_pos.
    + pose proof (Z.pow_nonneg 2 (- e)). lia.
    + apply Z.pow_pos_nonneg; lia.
Qed.

Lemma fixed6_plain n : 0 <= n -> no_hyphen (fixed6 n) = true ∧ fixed6 n ≠ "".
Proof.
  intros Hn. unfold fixed6, padStart. split.
  - rewrite !no_hyphen_app. simpl.
    rewrite !no_hyphen_substring; [done| |];
      by rewrite no_hyphen_app, no_hyphen_zeros, no_hyphen_String_.
  - by destruct (substring 0 _ _).
Qed.

Lemma ref_toFixed6_sign_leads x : sign_leads (ref_toFixed6 x) = true.
Proof.
  destruct x as [s|[]| |[] m e]; try done; simpl;
    destruct (fixed6_plain (scaled6 m e) (scaled6_nonneg m e)) as [Hp Hne].
  - done.
  - rewrite append_nil. destruct (fixed6 _) as [|c r]; [done|].
    simpl in Hp. by apply andb_true_iff in Hp as [_ Hp].
Qed.

End ReferenceEngine.

(** ** The properties on concrete inputs *)

Section Concrete.

Import Samples.

#[local] Existing Instance Reference.engine.

(** The file [picnic] is registered, deleted, and then enriched: its record
    is in the list again. *)
Lemma orphaned_enrichment_on_picnic :
  blob_bytes (file_blob picnic) ≠ ""
  ∧ ∃ url w1,
      processFile_register Succeeds picnic emptyWorld = (Returned url, w1)
      ∧ photoId picnic
        ∈ ids (photos (app (exec (processFile_onload picnic url (AnalysisReturns kamakura)
                                                      Succeeds)
                                 (exec (handleDeletePhoto true Succeeds (photoId picnic))
                                       w1)))).
Proof.
  assert (Hne : blob_bytes (file_blob picnic) ≠ "") by discriminate.
  split; [exact Hne|].
  destruct (orphaned_enrichment_resurrects picnic kamakura emptyWorld Hne)
    as (url & w1 & Hreg & Hrest).
  exists url, w1. split; [exact Hreg|]. apply Hrest.
Defined.

(** The same run, evaluated: after the delete the list and the store are
    empty; after the reply they hold the enriched record again. *)
Example picnic_comes_back :
  let w1 := exec (processFile_register Succeeds picnic) emptyWorld in
  let w2 := exec (handleDeletePhoto true Succeeds (photoId picnic)) w1 in
  let w3 := exec (processFile_onload picnic "blob:visionsort/0"
                                     (AnalysisReturns kamakura) Succeeds) w2 in
  photoId picnic = "photo-IMG_20230714_picnic.jpg-4-1704067200000"
  ∧ ids (photos (app w1)) = [photoId picnic]
  ∧ photos (app w2) = [] ∧ store_photos (db w2) = ∅
  ∧ photos (app w3) = [enriched picnic "blob:visionsort/0" kamakura]
  ∧ store_photos (db w3) !! photoId picnic
    = Some (DbService.dataToSave (enriched picnic "blob:visionsort/0" kamakura)).
Proof. vm_compute. done. Qed.

(** The scenario of the specification: the date in the file name is the
    leftmost run and beats the date of the service. *)
Lemma leftmost_date_wins_on_trip :
  parseSmartDate "20240305_trip.jpg" "2024/03/10" (mkDate 2024 0 1) = "2024-03-05".
Proof.
  apply (leftmost_date_wins "" "_trip.jpg" "2" "0" "2" "4" "0" "3" "0" "5"
           "2024/03/10" (mkDate 2024 0 1)).
  - reflexivity.
  - reflexivity.
  - vm_compute. split; reflexivity.
  - vm_compute. split; discriminate.
  - vm_compute. split; discriminate.
Defined.

(** C2 as stated fails: [19700101_20230714.jpg] contains the run
    [20230714], a valid date, but only the leftmost run [19700101] is
    examined; it is rejected for its year and the result is the date of
    the file, 2024-01-01. *)
Lemma later_date_run_is_missed : ¬ any_date_run_wins.
Proof.
  intros Hall.
  specialize (Hall "19700101_" ".jpg" "2"%char "0"%char "2"%char "3"%char
                   "0"%char "7"%char "1"%char "4"%char "Unknown" (mkDate 2024 0 1)).
  assert (Hres : parseSmartDate "19700101_20230714.jpg" "Unknown" (mkDate 2024 0 1)
                 = "2024-01-01") by (vm_compute; reflexivity).
  assert (Hclaim : parseSmartDate "19700101_20230714.jpg" "Unknown" (mkDate 2024 0 1)
                   = "2023-07-14").
  { apply Hall.
    - reflexivity.
    - vm_compute. split; reflexivity.
    - vm_compute. split; discriminate.
    - vm_compute. split; discriminate. }
  rewrite Hres in Hclaim. discriminate Hclaim.
Qed.

Lemma album_ids_NoDup : NoDup (ids album).
Proof. apply (bool_decide_unpack (NoDup (ids album))). vm_compute. exact I. Defined.

(** The clusters of [album]: [a] and [b] print alike and share a cluster,
    [c] has its own, [d] is not located. *)
Lemma clusters_of_album :
  let mapped := mappedPhotos album in
  let cl := clusters mapped in
  (∀ p, p ∈ mapped <-> p ∈ album ∧ located p = true)
  ∧ (∀ p, p ∈ mapped -> ∃ c, cl !! cluster_key p = Some c ∧ id p ∈ c_photoIds c)
  ∧ (∀ p q, p ∈ mapped -> q ∈ mapped ->
       (∃ k c, cl !! k = Some c ∧ id p ∈ c_photoIds c ∧ id q ∈ c_photoIds c)
       <-> (toFixed6 (latitude p) = toFixed6 (latitude q)
            ∧ toFixed6 (longitude p) = toFixed6 (longitude q)))
  ∧ (∀ k c, cl !! k = Some c ->
       ∃ first rest,
         members k mapped = first :: rest
         ∧ c_name c = locationName first
         ∧ c_count c = Z.of_nat (length (first :: rest))
         ∧ c_photoIds c = ids (first :: rest)
         ∧ c_lat c = latitude first ∧ c_lng c = longitude first
         ∧ c_thumbnailUrl c = url first).
Proof.
  exact (clusters_by_rendered_coordinates album ref_toFixed6_sign_leads album_ids_NoDup).
Defined.

Example album_clusters_evaluated :
  map_to_list (clusters (mappedPhotos album))
  ≡ₚ [("35.000000-139.000000",
       mkCluster "Kamakura" 2 n35 n139 ["a"; "b"] (Has "blob:visionsort/0"));
      ("10.000000-20.000000",
       mkCluster "Somewhere" 1 n10 n20 ["c"] (Has "blob:visionsort/0"))].
Proof. vm_compute. done. Qed.


Example relocation_of_a_evaluated :
  let '(_, w1) := updatePhotoLocation_begin "a" n10 n20 (with_photos album) in
  let r := mkRelocation (relocated (photo_at "a" (Has jpeg) "Kamakura" n35 n139) n10 n20)
                        jpeg in
  let named reply :=
    locationName <$> head (photos (app (exec (updatePhotoLocation_resolve "a" r reply) w1))) in
  (locationName <$> head (photos (app w1))) = Some RESOLVING_NAME
  ∧ named (Identified "Hakone" Succeeds) = Some "Hakone"
  ∧ named (Identified "Hakone" Fails) = Some COULD_NOT_IDENTIFY
  ∧ named IdentifyThrows = Some COULD_NOT_IDENTIFY
  ∧ named ReadFails = Some COULD_NOT_IDENTIFY.
Proof. vm_compute. done. Qed.

(** Relocating [c], which has no blob. *)
Lemma relocation_of_c :
  ∃ w1,
    updatePhotoLocation_begin "c" n35 n139 (with_photos album) = (Returned None, w1)
    ∧ db w1 = db (with_photos album) ∧ urlStore w1 = urlStore (with_photos album)
    ∧ alerts w1 = alerts (with_photos album)
    ∧ ids (photos (app w1)) = ids (photos (app (with_photos album)))
    ∧ (∀ p, p ∈ photos (app w1) -> id p = "c" ->
         latitude p = n35 ∧ longitude p = n139 ∧ manuallyPlaced p = Has true
         ∧ isProcessing p = true ∧ locationName p = RESOLVING_NAME)
    ∧ ("c" ∉ ids (photos (app (with_photos album))) -> w1 = with_photos album).
Proof.
  apply (relocation_without_blob "c" n35 n139 (with_photos album)).
  intros p Hp Hid. simpl in Hp.
  repeat (apply elem_of_cons in Hp as [->|Hp]); try discriminate Hid; try reflexivity.
  by apply elem_of_nil in Hp.
Defined.

(** A run of the record store: [a] is inserted, [c] is inserted while its
    write fails, [a] is merged with an update, a delete is declined, a delete
    fails, [c] is deleted, and so is an id that was never there. *)
Example store_run_evaluated :
  let a := photo_at "a" (Has jpeg) "Kamakura" n35 n139 in
  let c := photo_at "c" Missing "Somewhere" n10 n20 in
  let w := run_ops [Upsert Succeeds a; Upsert Fails c; Upsert Succeeds hakone_update;
                    Delete false Succeeds "a"; Delete true Fails "a";
                    Delete true Succeeds "c"; Delete true Succeeds "zz"] emptyWorld in
  photos (app w)
  = [{| id := "a"; url := Has "blob:visionsort/7"; fileBlob := Has jpeg; name := "a.jpg";
        locationName := "Hakone"; country := Undefined; latitude := n10; longitude := n20;
        date := "2024-03-06"; description := "lake"; isProcessing := false;
        manuallyPlaced := Has false |}]
  ∧ store_photos (db w) = {[ "a" := DbService.dataToSave hakone_update ]}
  ∧ alerts w = [DELETE_FAILED_NOTICE].
Proof. vm_compute. done. Qed.

(** Two rows are saved and loaded again: the row with a blob gets a new
    object URL for it, the row without one gets the empty string. *)
Example load_evaluated :
  let a := photo_at "a" (Has jpeg) "Kamakura" n35 n139 in
  let c := photo_at "c" Missing "Somewhere" n10 n20 in
  let w := run_calls [CallSavePhoto Succeeds a; CallSavePhoto Succeeds c] emptyWorld in
  url <$> DbService.getAll (store_photos (db w)) = [Missing; Missing]
  ∧ match DbService.getAllPhotos Succeeds w with
    | (Returned loaded, w') =>
        id <$> loaded = ["a"; "c"]
        ∧ url <$> loaded = [Has "blob:visionsort/0"; Has ""]
        ∧ urlStore w' = [jpeg]
    | (Thrown, _) => False
    end.
Proof. vm_compute. done. Qed.

(** Relocating an id that is not in the list changes nothing. *)
Example relocation_of_nobody :
  updatePhotoLocation_begin "z" n35 n139 (with_photos album)
  = (Returned None, with_photos album).
Proof. vm_compute. done. Qed.

End Concrete.
